(** * Lab6_Botones: button edge detector and interrupt-driven UART transmitter

    A shallow embedding of [Lab6_Botones/Lab6_Botones/main.c] (ATmega328P
    firmware).  The C globals become fields of explicit state records, every
    function and interrupt service routine becomes a function on that state,
    and the data register [UDR0] is modelled by the trace of the bytes
    written to it. *)

From Stdlib Require Import ZArith Ascii String List Bool Lia.
From stdpp Require Import base option list.
Import ListNotations.
Local Open Scope Z_scope.

(** ** Machine integers *)

(** [uint8_t] and [uint16_t] values are integers with explicit wrap-around. *)
Definition uint8_t (z : Z) : Z := z mod 256.
Definition uint16_t (z : Z) : Z := z mod 65536.

(** ** Compile-time constants *)

Definition CMD_UP : ascii := "U".
Definition CMD_DOWN : ascii := "D".
Definition CMD_RIGHT : ascii := "R".
Definition CMD_LEFT : ascii := "L".
Definition CMD_ACTION_A : ascii := "A".
Definition CMD_ACTION_B : ascii := "B".
Definition CMD_HEARTBEAT : ascii := "H".

(** The C character ['\n']. *)
Definition NL : ascii := "010".

(** Modelled from the spec: the bit numbers [PB3], [PB4], [PC2], [PC3],
    [PD2], [PD5] come from [<avr/io.h>], which is not among the sources; the
    values are the pin numbers of the spec's pin table (and of the comments
    next to the [BTN_*] macros). *)
Definition PB3 : Z := 3.
Definition PB4 : Z := 4.
Definition PC2 : Z := 2.
Definition PC3 : Z := 3.
Definition PD2 : Z := 2.
Definition PD5 : Z := 5.

Definition BTN_UP : Z := Z.shiftl 1 PC3.
Definition BTN_DOWN : Z := Z.shiftl 1 PB3.
Definition BTN_RIGHT : Z := Z.shiftl 1 PB4.
Definition BTN_LEFT : Z := Z.shiftl 1 PC2.
Definition BTN_ACTION_A : Z := Z.shiftl 1 PD5.
Definition BTN_ACTION_B : Z := Z.shiftl 1 PD2.

Definition UART_BUFFER_SIZE : Z := 32.

(** ** Serial transmitter *)

(** The transmitter globals, together with the trace of [UDR0]: the bytes
    handed to the hardware channel, oldest first. *)
Record uart : Type := mkUart {
  uart_tx_buffer : list ascii;
  uart_tx_head : Z;
  uart_tx_tail : Z;
  uart_transmitting : bool;
  UDR0 : list ascii
}.

(** The globals as initialised at program start.  The buffer is
    zero-initialised static storage. *)
Definition uart_reset : uart :=
  mkUart (replicate (Z.to_nat UART_BUFFER_SIZE) zero) 0 0 false [].

(** [uart_tx_buffer[i]]. *)
Definition buffer_at (u : uart) (i : Z) : ascii :=
  nth (Z.to_nat i) (uart_tx_buffer u) zero.

Definition uart_start_if_idle (u : uart) : uart :=
  if negb (uart_transmitting u) && negb (uart_tx_head u =? uart_tx_tail u) then
    mkUart (uart_tx_buffer u)
           (uart_tx_head u)
           (uint8_t ((uart_tx_tail u + 1) mod UART_BUFFER_SIZE))
           true
           (UDR0 u ++ [buffer_at u (uart_tx_tail u)])
  else u.

(** [ISR(USART_TX_vect)]: the completion callback. *)
Definition USART_TX_vect (u : uart) : uart :=
  if negb (uart_tx_head u =? uart_tx_tail u) then
    mkUart (uart_tx_buffer u)
           (uart_tx_head u)
           (uint8_t ((uart_tx_tail u + 1) mod UART_BUFFER_SIZE))
           (uart_transmitting u)
           (UDR0 u ++ [buffer_at u (uart_tx_tail u)])
  else
    mkUart (uart_tx_buffer u) (uart_tx_head u) (uart_tx_tail u) false (UDR0 u).

(** The loop [while (next_head == uart_tx_tail) { }] of [uart_send_char].
    The only thing that moves [uart_tx_tail] while the loop spins is the
    completion interrupt, so the loop is run against a schedule [irqs]: one
    entry per test of the loop condition that finds the buffer full, telling
    whether a completion interrupt is served before the next test.  [None]
    means that the loop is still spinning when the schedule ends.  Inside
    an interrupt service routine interrupts are masked and the schedule is
    empty. *)
Fixpoint busy_wait (irqs : list bool) (next_head : Z) (u : uart) : option uart :=
  if next_head =? uart_tx_tail u then
    match irqs with
    | [] => None
    | irq :: irqs' =>
        busy_wait irqs' next_head (if irq then USART_TX_vect u else u)
    end
  else Some u.

Definition uart_send_char (irqs : list bool) (data : ascii) (u : uart) : option uart :=
  let next_head := uint8_t ((uart_tx_head u + 1) mod UART_BUFFER_SIZE) in
  u' ← busy_wait irqs next_head u;
  Some (uart_start_if_idle
          (mkUart (<[Z.to_nat (uart_tx_head u') := data]> (uart_tx_buffer u'))
                  next_head
                  (uart_tx_tail u')
                  (uart_transmitting u')
                  (UDR0 u'))).

(** Result of a call that makes several [uart_send_char] calls in a row:
    either it returned, or it is spinning in a busy-wait after
    [calls_returned] of its [uart_send_char] calls returned. *)
Inductive outcome : Type :=
| Returned (u : uart)
| Spinning (calls_returned : nat).

Definition one_more_call (o : outcome) : outcome :=
  match o with
  | Returned u => Returned u
  | Spinning n => Spinning (S n)
  end.

(** [uart_send_string]: the C string is the characters before the first
    NUL.  [irqs] gives the interrupt schedule of each [uart_send_char] call
    in turn (none once the list is used up). *)
Fixpoint uart_send_string (irqs : list (list bool)) (s : string) (u : uart) : outcome :=
  match s with
  | EmptyString => Returned u
  | String c s' =>
      if Ascii.eqb c zero then Returned u
      else match uart_send_char (hd [] irqs) c u with
           | None => Spinning 0
           | Some u' => one_more_call (uart_send_string (tl irqs) s' u')
           end
  end.

(** The state right after the two assignments of a [uart_send_char] call
    that did not have to wait (lines 63 and 64), before
    [uart_start_if_idle] runs. *)
Definition stored (data : ascii) (u : uart) : uart :=
  mkUart (<[Z.to_nat (uart_tx_head u) := data]> (uart_tx_buffer u))
         (uint8_t ((uart_tx_head u + 1) mod UART_BUFFER_SIZE))
         (uart_tx_tail u) (uart_transmitting u) (UDR0 u).

(** [strlen]: the number of characters before the first NUL. *)
Fixpoint strlen (s : string) : nat :=
  match s with
  | EmptyString => O
  | String c s' => if Ascii.eqb c zero then O else S (strlen s')
  end.

(** *** Observation of the queue *)

(** Number of bytes stored in the buffer and not yet handed to the channel. *)
Definition pending_count (u : uart) : nat :=
  Z.to_nat ((uart_tx_head u - uart_tx_tail u) mod UART_BUFFER_SIZE).

(** The [n] slots of the buffer starting at index [t], in reading order. *)
Fixpoint slots (buf : list ascii) (n : nat) (t : Z) : list ascii :=
  match n with
  | O => []
  | S n' => nth (Z.to_nat t) buf zero :: slots buf n' ((t + 1) mod UART_BUFFER_SIZE)
  end.

(** The bytes waiting in the buffer, next to be transmitted first. *)
Definition pending (u : uart) : list ascii :=
  slots (uart_tx_buffer u) (pending_count u) (uart_tx_tail u).

(** Every byte accepted so far: those handed to the channel, then those
    still waiting. *)
Definition accepted (u : uart) : list ascii := UDR0 u ++ pending u.

(** The buffer is full when advancing head would reach tail. *)
Definition is_full (u : uart) : bool :=
  uint8_t ((uart_tx_head u + 1) mod UART_BUFFER_SIZE) =? uart_tx_tail u.

(** The indices stay inside the 32-byte array. *)
Record uart_wf (u : uart) : Prop := mkWf {
  wf_buffer : length (uart_tx_buffer u) = Z.to_nat UART_BUFFER_SIZE;
  wf_head : 0 <= uart_tx_head u < UART_BUFFER_SIZE;
  wf_tail : 0 <= uart_tx_tail u < UART_BUFFER_SIZE
}.

(** *** Runs of the transmitter *)

(** The two kinds of calls that touch the transmitter: an enqueue that
    returns, and one invocation of the completion callback. *)
Inductive event : Type :=
| Enqueue (data : ascii)
| TxComplete.

Definition step (e : event) (u : uart) : option uart :=
  match e with
  | Enqueue data => uart_send_char [] data u
  | TxComplete => Some (USART_TX_vect u)
  end.

Fixpoint run (evs : list event) (u : uart) : option uart :=
  match evs with
  | [] => Some u
  | e :: evs' => u' ← step e u; run evs' u'
  end.

(** The bytes of the enqueue calls of a run, in call order. *)
Fixpoint enqueued (evs : list event) : list ascii :=
  match evs with
  | [] => []
  | Enqueue data :: evs' => data :: enqueued evs'
  | TxComplete :: evs' => enqueued evs'
  end.

(** Number of completion callbacks in a run. *)
Fixpoint completions (evs : list event) : nat :=
  match evs with
  | [] => O
  | Enqueue _ :: evs' => completions evs'
  | TxComplete :: evs' => S (completions evs')
  end.

(** The hardware raises the completion interrupt once for each byte it
    was handed: in a run of the hardware, a completion callback only
    occurs while a byte written to [UDR0] has not completed yet. *)
Fixpoint hw_run (evs : list event) (done : nat) (u : uart) : option uart :=
  match evs with
  | [] => Some u
  | Enqueue data :: evs' => u' ← uart_send_char [] data u; hw_run evs' done u'
  | TxComplete :: evs' =>
      if (done <? length (UDR0 u))%nat
      then hw_run evs' (S done) (USART_TX_vect u)
      else None
  end.

(** What holds between calls in a run of the hardware that has seen [done]
    completions: exactly the bytes written to [UDR0] and not yet completed
    are in flight, the flag is set while one is, and an idle channel has an
    empty buffer. *)
Record in_step (done : nat) (u : uart) : Prop := mkInStep {
  in_step_wf : uart_wf u;
  in_step_flight :
    length (UDR0 u) = (done + (if uart_transmitting u then 1 else 0))%nat;
  in_step_idle : uart_transmitting u = false -> uart_tx_head u = uart_tx_tail u
}.

(** ** Edge detector *)

(** The globals of the program: the transmitter and one snapshot per port. *)
Record sys : Type := mkSys {
  tx : uart;
  last_portb : Z;
  last_portc : Z;
  last_portd : Z
}.

(** The globals once a transmitter call has left the transmitter in [u]. *)
Definition with_tx (st : sys) (u : uart) : sys :=
  mkSys u (last_portb st) (last_portc st) (last_portd st).

(** A [uart_send_char] call made by an interrupt service routine:
    interrupts are masked there, so no completion interrupt is served while
    the call waits. *)
Definition isr_send_char (data : ascii) (st : sys) : option sys :=
  u ← uart_send_char [] data (tx st);
  Some (with_tx st u).

(** The C condition [(changed & btn) && !(current & btn)]. *)
Definition fell (changed current btn : Z) : bool :=
  negb (Z.land changed btn =? 0) && (Z.land current btn =? 0).

(** [ISR(PCINT0_vect)], with [PINB] the 8-bit value read from the port; the
    exclusive or and the one-bit masks stay within eight bits, so no
    wrap-around is written. *)
Definition PCINT0_vect (PINB : Z) (st : sys) : option sys :=
  let current := PINB in
  let changed := Z.lxor current (last_portb st) in
  st1 ← (if fell changed current BTN_DOWN
         then st' ← isr_send_char CMD_DOWN st; isr_send_char NL st'
         else Some st);
  st2 ← (if fell changed current BTN_RIGHT
         then st' ← isr_send_char CMD_RIGHT st1; isr_send_char NL st'
         else Some st1);
  Some (mkSys (tx st2) current (last_portc st2) (last_portd st2)).

(** [ISR(PCINT1_vect)], with [PINC] the value read from the port. *)
Definition PCINT1_vect (PINC : Z) (st : sys) : option sys :=
  let current := PINC in
  let changed := Z.lxor current (last_portc st) in
  st1 ← (if fell changed current BTN_UP
         then st' ← isr_send_char CMD_UP st; isr_send_char NL st'
         else Some st);
  st2 ← (if fell changed current BTN_LEFT
         then st' ← isr_send_char CMD_LEFT st1; isr_send_char NL st'
         else Some st1);
  Some (mkSys (tx st2) (last_portb st2) current (last_portd st2)).

(** [ISR(PCINT2_vect)], with [PIND] the value read from the port. *)
Definition PCINT2_vect (PIND : Z) (st : sys) : option sys :=
  let current := PIND in
  let changed := Z.lxor current (last_portd st) in
  st1 ← (if fell changed current BTN_ACTION_A
         then st' ← isr_send_char CMD_ACTION_A st; isr_send_char NL st'
         else Some st);
  st2 ← (if fell changed current BTN_ACTION_B
         then st' ← isr_send_char CMD_ACTION_B st1; isr_send_char NL st'
         else Some st1);
  Some (mkSys (tx st2) (last_portb st2) (last_portc st2) current).

(** The three pin groups, each with its handler and its snapshot. *)
Inductive group : Type := GroupB | GroupC | GroupD.

Definition handler (g : group) : Z -> sys -> option sys :=
  match g with
  | GroupB => PCINT0_vect
  | GroupC => PCINT1_vect
  | GroupD => PCINT2_vect
  end.

Definition snapshot (g : group) : sys -> Z :=
  match g with
  | GroupB => last_portb
  | GroupC => last_portc
  | GroupD => last_portd
  end.

(** The pins a handler tests, in the order in which it tests them, each
    with the command it sends. *)
Definition tested (g : group) : list (Z * ascii) :=
  match g with
  | GroupB => [(PB3, CMD_DOWN); (PB4, CMD_RIGHT)]
  | GroupC => [(PC3, CMD_UP); (PC2, CMD_LEFT)]
  | GroupD => [(PD5, CMD_ACTION_A); (PD2, CMD_ACTION_B)]
  end.

(** Pin [p] shows a falling edge between the snapshot [prev] and the value
    [cur]: the bit changed and is now clear. *)
Definition falling (prev cur p : Z) : bool :=
  Z.testbit (Z.lxor cur prev) p && negb (Z.testbit cur p).

(** The (command, newline) pair of one pin, present when the pin fell. *)
Definition pair_if (b : bool) (cmd : ascii) : list ascii :=
  if b then [cmd; NL] else [].

(** The bytes a group evaluation sends, from the tests of its handler. *)
Definition emission (g : group) (prev cur : Z) : list ascii :=
  flat_map (fun pc => pair_if (falling prev cur (fst pc)) (snd pc)) (tested g).



(** What the interrupt service routines rely on: the call returns when the
    buffer has room, the byte is accepted, and the snapshots are left
    alone. *)
Record sent_by_isr (bytes : list ascii) (st st' : sys) : Prop := mkSent {
  sent_wf : uart_wf (tx st');
  sent_accepted : accepted (tx st') = accepted (tx st) ++ bytes;
  sent_count : (pending_count (tx st') <= pending_count (tx st) + length bytes)%nat;
  sent_portb : last_portb st' = last_portb st;
  sent_portc : last_portc st' = last_portc st;
  sent_portd : last_portd st' = last_portd st
}.

(** ** Main loop *)

(** The completion interrupts of one iteration of the main loop: those
    served while each of the two [uart_send_char] calls waits, and the
    number served during [_delay_ms(10)]. *)
Record tick : Type := mkTick {
  irqs_cmd : list bool;
  irqs_nl : list bool;
  irqs_delay : nat
}.

(** One iteration of [while (1)] in [main], on the heartbeat counter and
    the transmitter. *)
Definition main_loop_body (t : tick) (cu : Z * uart) : option (Z * uart) :=
  let heartbeat_counter := uint16_t (fst cu + 1) in
  if heartbeat_counter >=? 1000 then
    u1 ← uart_send_char (irqs_cmd t) CMD_HEARTBEAT (snd cu);
    u2 ← uart_send_char (irqs_nl t) NL u1;
    Some (0, Nat.iter (irqs_delay t) USART_TX_vect u2)
  else
    Some (heartbeat_counter, Nat.iter (irqs_delay t) USART_TX_vect (snd cu)).

(** Consecutive iterations of the main loop, one per [tick]. *)
Fixpoint main_loop (ts : list tick) (cu : Z * uart) : option (Z * uart) :=
  match ts with
  | [] => Some cu
  | t :: ts' => cu' ← main_loop_body t cu; main_loop ts' cu'
  end.

(** *** Enqueue calls of [main] interrupted by other producers *)

(** [main] runs with interrupts enabled ([sei()] precedes the loop) and
    [uart_send_char] masks none, so a pin-change handler, itself a producer,
    can be served between two statements of a [uart_send_char] call of
    [main]; a handler runs to completion, interrupts being masked inside
    it.  [after_61] stands for the handlers served once [next_head] is
    computed (line 61), [after_63] for those served once the byte is stored
    (line 63) and before head is assigned (line 64); [Some] is the case of
    no interrupt, and [irqs] is the schedule of the wait loop as in
    [uart_send_char].  The volatile [uart_tx_head] is read again by the
    store of line 63. *)
Definition main_send_char (irqs : list bool) (after_61 after_63 : sys -> option sys)
    (data : ascii) (st : sys) : option sys :=
  let next_head := uint8_t ((uart_tx_head (tx st) + 1) mod UART_BUFFER_SIZE) in
  st1 ← after_61 st;
  u2 ← busy_wait irqs next_head (tx st1);
  let u3 := mkUart (<[Z.to_nat (uart_tx_head u2) := data]> (uart_tx_buffer u2))
                   (uart_tx_head u2) (uart_tx_tail u2)
                   (uart_transmitting u2) (UDR0 u2) in
  st4 ← after_63 (with_tx st1 u3);
  let u5 := mkUart (uart_tx_buffer (tx st4)) next_head (uart_tx_tail (tx st4))
                   (uart_transmitting (tx st4)) (UDR0 (tx st4)) in
  Some (with_tx st4 (uart_start_if_idle u5)).

(** What a stretch of main-loop iterations does to the transmitter. *)
Record looped (bytes : list ascii) (u u' : uart) : Prop := mkLooped {
  looped_wf : uart_wf u';
  looped_accepted : accepted u' = accepted u ++ bytes;
  looped_count : (pending_count u' <= pending_count u + length bytes)%nat
}.

(** The bytes of [k] heartbeats. *)
Fixpoint heartbeats (k : nat) : list ascii :=
  match k with
  | O => []
  | S k' => CMD_HEARTBEAT :: NL :: heartbeats k'
  end.

(** *** A group evaluation that may not return *)











(** ** The rest of the program *)

(** The characters of a C string: those before the first NUL. *)
Fixpoint c_str (s : string) : list ascii :=
  match s with
  | EmptyString => []
  | String c s' => if Ascii.eqb c zero then [] else c :: c_str s'
  end.

(** The store of line 63 alone: the byte goes into the head slot, head is
    not assigned yet. *)
Definition store_at_head (data : ascii) (u : uart) : uart :=
  mkUart (<[Z.to_nat (uart_tx_head u) := data]> (uart_tx_buffer u))
         (uart_tx_head u) (uart_tx_tail u) (uart_transmitting u) (UDR0 u).

(** [n] completion interrupts served in a row, as an interruption of
    [main]. *)
Definition completions_served (n : nat) (st : sys) : option sys :=
  Some (with_tx st (Nat.iter n USART_TX_vect (tx st))).

(** Successive evaluations of one group, one per value read from its port. *)
Fixpoint handler_run (g : group) (curs : list Z) (st : sys) : option sys :=
  match curs with
  | [] => Some st
  | cur :: curs' => st' ← handler g cur st; handler_run g curs' st'
  end.

(** The bytes sent along a sequence of values read, each value compared
    with the one before it. *)
Fixpoint emissions (g : group) (prev : Z) (curs : list Z) : list ascii :=
  match curs with
  | [] => []
  | cur :: curs' => emission g prev cur ++ emissions g cur curs'
  end.

(** The globals with the snapshot of group [g] replaced. *)
Definition set_snapshot (g : group) (v : Z) (st : sys) : sys :=
  match g with
  | GroupB => mkSys (tx st) v (last_portc st) (last_portd st)
  | GroupC => mkSys (tx st) (last_portb st) v (last_portd st)
  | GroupD => mkSys (tx st) (last_portb st) (last_portc st) v
  end.

(** The bit numbers of [<avr/io.h>] used by [setup_pin_change_interrupts];
    the header is not among the sources, so they are taken as a
    parameter. *)
Record avr_io : Type := mkAvrIo {
  PCIE0 : Z; PCIE1 : Z; PCIE2 : Z;
  PCINT3 : Z; PCINT4 : Z;
  PCINT10 : Z; PCINT11 : Z;
  PCINT18 : Z; PCINT21 : Z
}.

(** The pin-change interrupt registers. *)
Record pcint_regs : Type := mkPcint {
  PCICR : Z;
  PCMSK0 : Z;
  PCMSK1 : Z;
  PCMSK2 : Z
}.

(** [setup_pin_change_interrupts], with [PINB], [PINC], [PIND] the values
    read from the ports. *)
Definition setup_pin_change_interrupts (io : avr_io) (PINB PINC PIND : Z)
    (st : sys) : pcint_regs * sys :=
  (mkPcint
     (uint8_t (Z.lor (Z.lor (Z.shiftl 1 (PCIE0 io)) (Z.shiftl 1 (PCIE1 io)))
                     (Z.shiftl 1 (PCIE2 io))))
     (uint8_t (Z.lor (Z.shiftl 1 (PCINT3 io)) (Z.shiftl 1 (PCINT4 io))))
     (uint8_t (Z.lor (Z.shiftl 1 (PCINT10 io)) (Z.shiftl 1 (PCINT11 io))))
     (uint8_t (Z.lor (Z.shiftl 1 (PCINT18 io)) (Z.shiftl 1 (PCINT21 io)))),
   mkSys (tx st) PINB PINC PIND).

(** The direction and output registers of the three ports. *)
Record ports : Type := mkPorts {
  DDRB : Z; PORTB : Z;
  DDRC : Z; PORTC : Z;
  DDRD : Z; PORTD : Z
}.

(** The first six statements of [main]: the button pins become inputs with
    pull-up.  The operands are promoted to [int], so the complement is the
    one of the integers, and the result is stored into an 8-bit register. *)
Definition main_configure_pins (r : ports) : ports :=
  mkPorts
    (uint8_t (Z.land (DDRB r) (Z.lnot (Z.lor BTN_DOWN BTN_RIGHT))))
    (uint8_t (Z.lor (PORTB r) (Z.lor BTN_DOWN BTN_RIGHT)))
    (uint8_t (Z.land (DDRC r) (Z.lnot (Z.lor BTN_UP BTN_LEFT))))
    (uint8_t (Z.lor (PORTC r) (Z.lor BTN_UP BTN_LEFT)))
    (uint8_t (Z.land (DDRD r) (Z.lnot (Z.lor BTN_ACTION_A BTN_ACTION_B))))
    (uint8_t (Z.lor (PORTD r) (Z.lor BTN_ACTION_A BTN_ACTION_B))).

(** The direction and the output register of a group. *)
Definition ddr (g : group) : ports -> Z :=
  match g with GroupB => DDRB | GroupC => DDRC | GroupD => DDRD end.

Definition port (g : group) : ports -> Z :=
  match g with GroupB => PORTB | GroupC => PORTC | GroupD => PORTD end.

(** Whether [p] is one of the pins that the handler of [g] tests. *)
Definition is_tested (g : group) (p : Z) : bool :=
  existsb (fun pc => fst pc =? p) (tested g).

(** * Properties *)

(** ** Index arithmetic *)

Ltac index_arith :=
  unfold uint8_t, uint16_t, UART_BUFFER_SIZE in *;
  Z.div_mod_to_equations; lia.

Lemma next_index (i : Z) :
  uint8_t ((i + 1) mod UART_BUFFER_SIZE) = (i + 1) mod UART_BUFFER_SIZE.
Proof. index_arith. Qed.

Lemma next_index_range (i : Z) :
  0 <= uint8_t ((i + 1) mod UART_BUFFER_SIZE) < UART_BUFFER_SIZE.
Proof. index_arith. Qed.

Lemma pending_count_lt (u : uart) : (pending_count u < 32)%nat.
Proof. unfold pending_count. index_arith. Qed.

Lemma pending_count_0 (u : uart) :
  uart_wf u -> (pending_count u = 0%nat <-> uart_tx_head u = uart_tx_tail u).
Proof.
  intros [_ Hh Ht]. unfold pending_count. split; intros H.
  - index_arith.
  - rewrite H, Z.sub_diag. reflexivity.
Qed.

(** ** Well-formedness is preserved *)

Lemma uart_reset_wf : uart_wf uart_reset.
Proof. split; simpl; [reflexivity | index_arith | index_arith]. Qed.

Lemma uart_start_if_idle_wf (u : uart) : uart_wf u -> uart_wf (uart_start_if_idle u).
Proof.
  intros [Hb Hh Ht]. unfold uart_start_if_idle.
  destruct (negb (uart_transmitting u) && negb (uart_tx_head u =? uart_tx_tail u));
    split; simpl; auto.
  apply next_index_range.
Qed.

Lemma USART_TX_vect_wf (u : uart) : uart_wf u -> uart_wf (USART_TX_vect u).
Proof.
  intros [Hb Hh Ht]. unfold USART_TX_vect.
  destruct (negb (uart_tx_head u =? uart_tx_tail u)); split; simpl; auto.
  apply next_index_range.
Qed.

Lemma busy_wait_wf (irqs : list bool) (nh : Z) (u u' : uart) :
  uart_wf u -> busy_wait irqs nh u = Some u' -> uart_wf u'.
Proof.
  revert u. induction irqs as [|irq irqs IH]; intros u Hwf; simpl.
  - destruct (nh =? uart_tx_tail u); [discriminate | congruence].
  - destruct (nh =? uart_tx_tail u); [|congruence].
    apply IH. destruct irq; auto using USART_TX_vect_wf.
Qed.

Lemma busy_wait_head (irqs : list bool) (nh : Z) (u u' : uart) :
  busy_wait irqs nh u = Some u' -> uart_tx_head u' = uart_tx_head u.
Proof.
  revert u. induction irqs as [|irq irqs IH]; intros u; simpl.
  - destruct (nh =? uart_tx_tail u); [discriminate | congruence].
  - destruct (nh =? uart_tx_tail u); [|congruence].
    intros H. rewrite (IH _ H). destruct irq; [|reflexivity].
    unfold USART_TX_vect. destruct (negb _); reflexivity.
Qed.

Lemma busy_wait_exit (irqs : list bool) (nh : Z) (u u' : uart) :
  busy_wait irqs nh u = Some u' -> nh <> uart_tx_tail u'.
Proof.
  revert u. induction irqs as [|irq irqs IH]; intros u; simpl.
  - destruct (Z.eqb_spec nh (uart_tx_tail u)); [discriminate | congruence].
  - destruct (Z.eqb_spec nh (uart_tx_tail u)); [apply IH | congruence].
Qed.

Lemma busy_wait_not_full (irqs : list bool) (nh : Z) (u : uart) :
  nh <> uart_tx_tail u -> busy_wait irqs nh u = Some u.
Proof.
  intros H. destruct irqs; simpl; destruct (Z.eqb_spec nh (uart_tx_tail u)); congruence.
Qed.

Lemma uart_send_char_wf (irqs : list bool) (data : ascii) (u u' : uart) :
  uart_wf u -> uart_send_char irqs data u = Some u' -> uart_wf u'.
Proof.
  intros Hwf. unfold uart_send_char.
  destruct (busy_wait irqs _ u) as [u1|] eqn:Hw; simpl; [|discriminate].
  intros [= <-]. apply uart_start_if_idle_wf.
  pose proof (busy_wait_wf _ _ _ _ Hwf Hw) as [Hb Hh Ht].
  destruct Hwf as [_ Hh0 _].
  split; simpl; auto.
  - rewrite length_insert. exact Hb.
  - apply next_index_range.
Qed.

(** ** The bytes waiting in the buffer *)

Lemma slots_insert_snoc (buf : list ascii) (h : Z) (data : ascii) (n : nat) :
  length buf = Z.to_nat UART_BUFFER_SIZE ->
  0 <= h < UART_BUFFER_SIZE ->
  forall t : Z,
    0 <= t < UART_BUFFER_SIZE ->
    (n < 32)%nat ->
    (t + Z.of_nat n) mod UART_BUFFER_SIZE = h ->
    slots (<[Z.to_nat h := data]> buf) (S n) t = slots buf n t ++ [data].
Proof.
  intros Hlen Hh. induction n as [|n IH]; intros t Ht Hn Hth.
  - assert (t = h) as -> by index_arith. simpl.
    rewrite nth_lookup, list_lookup_insert_eq; [reflexivity|].
    rewrite Hlen. index_arith.
  - change (slots (<[Z.to_nat h:=data]> buf) (S (S n)) t)
      with (nth (Z.to_nat t) (<[Z.to_nat h:=data]> buf) zero
              :: slots (<[Z.to_nat h:=data]> buf) (S n) ((t + 1) mod UART_BUFFER_SIZE)).
    rewrite IH; [| index_arith | lia | index_arith].
    simpl. f_equal.
    rewrite !nth_lookup, list_lookup_insert_ne; [reflexivity|].
    index_arith.
Qed.

Lemma pending_USART_TX_vect (u : uart) :
  uart_wf u ->
  uart_tx_head u <> uart_tx_tail u ->
  pending u = buffer_at u (uart_tx_tail u) :: pending (USART_TX_vect u) /\
  pending_count u = S (pending_count (USART_TX_vect u)).
Proof.
  intros [Hb Hh Ht] Hne. unfold USART_TX_vect.
  destruct (Z.eqb_spec (uart_tx_head u) (uart_tx_tail u)); [contradiction|]. simpl.
  unfold pending, pending_count. simpl.
  rewrite next_index.
  assert (Z.to_nat ((uart_tx_head u - uart_tx_tail u) mod UART_BUFFER_SIZE)
          = S (Z.to_nat ((uart_tx_head u - (uart_tx_tail u + 1) mod UART_BUFFER_SIZE)
                           mod UART_BUFFER_SIZE))) as -> by index_arith.
  split; reflexivity.
Qed.

Lemma accepted_USART_TX_vect (u : uart) :
  uart_wf u -> accepted (USART_TX_vect u) = accepted u.
Proof.
  intros Hwf. destruct (Z.eq_dec (uart_tx_head u) (uart_tx_tail u)) as [He|Hne].
  - unfold USART_TX_vect.
    destruct (Z.eqb_spec (uart_tx_head u) (uart_tx_tail u)); [|contradiction].
    reflexivity.
  - destruct (pending_USART_TX_vect u Hwf Hne) as [Hp _].
    unfold accepted. rewrite Hp.
    unfold USART_TX_vect at 1.
    destruct (Z.eqb_spec (uart_tx_head u) (uart_tx_tail u)); [contradiction|]. simpl.
    rewrite <- app_assoc. reflexivity.
Qed.

Lemma uart_start_if_idle_cases (u : uart) :
  uart_start_if_idle u = u \/
  (uart_transmitting u = false /\ uart_tx_head u <> uart_tx_tail u /\
   uart_start_if_idle u =
     mkUart (uart_tx_buffer u) (uart_tx_head u) (uart_tx_tail (USART_TX_vect u)) true
            (UDR0 (USART_TX_vect u))).
Proof.
  unfold uart_start_if_idle, USART_TX_vect.
  destruct (uart_transmitting u); simpl; auto.
  destruct (Z.eqb_spec (uart_tx_head u) (uart_tx_tail u)); simpl; auto.
Qed.

Lemma accepted_uart_start_if_idle (u : uart) :
  uart_wf u -> accepted (uart_start_if_idle u) = accepted u.
Proof.
  intros Hwf. destruct (uart_start_if_idle_cases u) as [->|(Hi & Hne & ->)]; [reflexivity|].
  rewrite <- (accepted_USART_TX_vect u Hwf).
  unfold USART_TX_vect.
  destruct (Z.eqb_spec (uart_tx_head u) (uart_tx_tail u)); [contradiction|]. reflexivity.
Qed.

Lemma accepted_busy_wait (irqs : list bool) (nh : Z) (u u' : uart) :
  uart_wf u -> busy_wait irqs nh u = Some u' -> accepted u' = accepted u.
Proof.
  revert u. induction irqs as [|irq irqs IH]; intros u Hwf; simpl.
  - destruct (nh =? uart_tx_tail u); [discriminate | congruence].
  - destruct (nh =? uart_tx_tail u); [|congruence].
    intros H. destruct irq.
    + rewrite (IH _ (USART_TX_vect_wf _ Hwf) H). apply accepted_USART_TX_vect, Hwf.
    + apply (IH _ Hwf H).
Qed.

Lemma accepted_uart_send_char (irqs : list bool) (data : ascii) (u u' : uart) :
  uart_wf u ->
  uart_send_char irqs data u = Some u' ->
  accepted u' = accepted u ++ [data].
Proof.
  intros Hwf Hs.
  pose proof (uart_send_char_wf _ _ _ _ Hwf Hs) as Hwf'.
  revert Hs. unfold uart_send_char.
  destruct (busy_wait irqs _ u) as [u1|] eqn:Hw; simpl; [|discriminate].
  intros [= <-].
  pose proof (busy_wait_wf _ _ _ _ Hwf Hw) as Hwf1.
  pose proof (busy_wait_head _ _ _ _ Hw) as Hh1.
  pose proof (busy_wait_exit _ _ _ _ Hw) as Hex.
  rewrite <- (accepted_busy_wait _ _ _ _ Hwf Hw).
  destruct Hwf as [_ Hh _]. destruct Hwf1 as [Hb1 Hh1' Ht1].
  rewrite <- Hh1 in *. rewrite next_index in *.
  rewrite accepted_uart_start_if_idle.
  2:{ split; simpl; [rewrite length_insert; exact Hb1 | index_arith | exact Ht1]. }
  unfold accepted, pending, pending_count. simpl.
  rewrite <- app_assoc. f_equal.
  assert (Z.to_nat (((uart_tx_head u1 + 1) mod UART_BUFFER_SIZE - uart_tx_tail u1)
                      mod UART_BUFFER_SIZE)
          = S (Z.to_nat ((uart_tx_head u1 - uart_tx_tail u1) mod UART_BUFFER_SIZE)))
    as -> by index_arith.
  apply slots_insert_snoc; auto; index_arith.
Qed.

Lemma slots_length (buf : list ascii) (n : nat) (t : Z) : length (slots buf n t) = n.
Proof. revert t. induction n as [|n IH]; intros t; simpl; [reflexivity | now rewrite IH]. Qed.

Lemma pending_length (u : uart) : length (pending u) = pending_count u.
Proof. apply slots_length. Qed.

(** ** What one enqueue does *)

Lemma uart_send_char_not_full (irqs : list bool) (data : ascii) (u : uart) :
  is_full u = false ->
  uart_send_char irqs data u = Some (uart_start_if_idle (stored data u)).
Proof.
  unfold is_full. intros Hf. unfold uart_send_char.
  rewrite busy_wait_not_full; [reflexivity|].
  intros He. rewrite He, Z.eqb_refl in Hf. discriminate.
Qed.

Lemma uart_send_char_full (data : ascii) (u : uart) :
  is_full u = true -> uart_send_char [] data u = None.
Proof.
  unfold is_full. intros Hf. unfold uart_send_char. simpl. rewrite Hf. reflexivity.
Qed.

Lemma uart_send_char_returns (data : ascii) (u u' : uart) :
  uart_send_char [] data u = Some u' ->
  is_full u = false /\ u' = uart_start_if_idle (stored data u).
Proof.
  intros H. destruct (is_full u) eqn:Hf.
  - rewrite uart_send_char_full in H by assumption. discriminate.
  - rewrite uart_send_char_not_full in H by assumption. split; congruence.
Qed.

Lemma is_full_pending_count (u : uart) :
  uart_wf u -> (is_full u = true <-> pending_count u = 31%nat).
Proof.
  intros [_ Hh Ht]. unfold is_full, pending_count.
  destruct (Z.eqb_spec (uint8_t ((uart_tx_head u + 1) mod UART_BUFFER_SIZE)) (uart_tx_tail u));
    split; intros H; try discriminate; try reflexivity; index_arith.
Qed.

Lemma stored_head_ne_tail (data : ascii) (u : uart) :
  is_full u = false -> uart_tx_head (stored data u) <> uart_tx_tail (stored data u).
Proof.
  unfold is_full. simpl. intros Hf He. rewrite He, Z.eqb_refl in Hf. discriminate.
Qed.

(** After an enqueue returned, the channel is transmitting. *)
Lemma uart_send_char_transmitting (data : ascii) (u : uart) :
  is_full u = false ->
  uart_transmitting (uart_start_if_idle (stored data u)) = true.
Proof.
  intros Hf. pose proof (stored_head_ne_tail data u Hf) as Hne.
  unfold uart_start_if_idle.
  destruct (Z.eqb_spec (uart_tx_head (stored data u)) (uart_tx_tail (stored data u)));
    [contradiction|].
  unfold stored. simpl. destruct (uart_transmitting u); simpl; reflexivity.
Qed.

(** ** Runs *)

Lemma step_wf (e : event) (u u' : uart) : uart_wf u -> step e u = Some u' -> uart_wf u'.
Proof.
  intros Hwf. destruct e as [data|]; simpl.
  - apply uart_send_char_wf, Hwf.
  - intros [= <-]. apply USART_TX_vect_wf, Hwf.
Qed.

Lemma step_accepted (e : event) (u u' : uart) :
  uart_wf u -> step e u = Some u' -> accepted u' = accepted u ++ enqueued [e].
Proof.
  intros Hwf. destruct e as [data|]; simpl.
  - apply accepted_uart_send_char, Hwf.
  - intros [= <-]. rewrite app_nil_r. apply accepted_USART_TX_vect, Hwf.
Qed.

Lemma enqueued_app (evs1 evs2 : list event) :
  enqueued (evs1 ++ evs2) = enqueued evs1 ++ enqueued evs2.
Proof.
  induction evs1 as [|[data|] evs1 IH]; simpl; [reflexivity | now rewrite IH | exact IH].
Qed.

Lemma run_app (evs1 evs2 : list event) (u : uart) :
  run (evs1 ++ evs2) u = u' ← run evs1 u; run evs2 u'.
Proof.
  revert u. induction evs1 as [|e evs1 IH]; intros u; simpl; [reflexivity|].
  destruct (step e u) as [u1|]; simpl; [apply IH | reflexivity].
Qed.

Lemma run_accepted (evs : list event) (u u' : uart) :
  uart_wf u -> run evs u = Some u' ->
  uart_wf u' /\ accepted u' = accepted u ++ enqueued evs.
Proof.
  revert u. induction evs as [|e evs IH]; intros u Hwf; simpl.
  - intros [= <-]. rewrite app_nil_r. auto.
  - destruct (step e u) as [u1|] eqn:Hs; simpl; [|discriminate].
    intros Hr. destruct (IH u1 (step_wf _ _ _ Hwf Hs) Hr) as [Hwf' Ha].
    split; [exact Hwf'|].
    rewrite Ha, (step_accepted _ _ _ Hwf Hs), <- app_assoc.
    destruct e; reflexivity.
Qed.

(** Completion callbacks alone empty the buffer: after as many callbacks
    as bytes are waiting, every accepted byte was handed to the channel. *)
Lemma run_drain (n : nat) (u : uart) :
  uart_wf u -> pending_count u = n ->
  exists u', run (replicate n TxComplete) u = Some u' /\
             UDR0 u' = accepted u /\ uart_tx_head u' = uart_tx_tail u'.
Proof.
  revert u. induction n as [|n IH]; intros u Hwf Hn.
  - exists u. split; [reflexivity|].
    unfold accepted, pending. rewrite Hn. simpl. rewrite app_nil_r.
    split; [reflexivity | now apply pending_count_0].
  - assert (uart_tx_head u <> uart_tx_tail u) as Hne.
    { intros He. apply (pending_count_0 u Hwf) in He. lia. }
    destruct (pending_USART_TX_vect u Hwf Hne) as [_ Hc].
    destruct (IH (USART_TX_vect u) (USART_TX_vect_wf u Hwf)) as (u' & Hr & Hu & Hht);
      [lia|].
    exists u'. simpl. rewrite Hr, Hu, accepted_USART_TX_vect by exact Hwf. auto.
Qed.

Lemma enqueued_replicate_TxComplete (n : nat) : enqueued (replicate n TxComplete) = [].
Proof. induction n; simpl; auto. Qed.

(** ** Accounting for the byte in flight *)

Lemma in_step_reset : in_step 0 uart_reset.
Proof. split; [apply uart_reset_wf | reflexivity | reflexivity]. Qed.

Lemma in_step_uart_send_char (done : nat) (data : ascii) (u u' : uart) :
  in_step done u -> uart_send_char [] data u = Some u' -> in_step done u'.
Proof.
  intros [Hwf Hfl Hid] Hs.
  pose proof (uart_send_char_wf _ _ _ _ Hwf Hs) as Hwf'.
  destruct (uart_send_char_returns _ _ _ Hs) as [Hf ->].
  pose proof (uart_send_char_transmitting data u Hf) as Htr.
  split; [exact Hwf' | | congruence].
  rewrite Htr. clear Htr Hs Hwf'.
  pose proof (stored_head_ne_tail data u Hf) as Hne.
  unfold uart_start_if_idle.
  destruct (Z.eqb_spec (uart_tx_head (stored data u)) (uart_tx_tail (stored data u)));
    [contradiction|].
  unfold stored. simpl.
  destruct (uart_transmitting u); simpl; rewrite ?length_app; simpl; lia.
Qed.

Lemma in_step_USART_TX_vect (done : nat) (u : uart) :
  in_step done u -> (done < length (UDR0 u))%nat -> in_step (S done) (USART_TX_vect u).
Proof.
  intros [Hwf Hfl Hid] Hlt.
  assert (uart_transmitting u = true) as Htr.
  { destruct (uart_transmitting u); [reflexivity | lia]. }
  split; [apply USART_TX_vect_wf, Hwf | |];
    unfold USART_TX_vect;
    destruct (Z.eqb_spec (uart_tx_head u) (uart_tx_tail u)); simpl;
    rewrite ?Htr, ?length_app; simpl; try rewrite Htr in Hfl; try lia; congruence.
Qed.

Lemma hw_run_in_step (evs : list event) (done : nat) (u u' : uart) :
  in_step done u -> hw_run evs done u = Some u' ->
  in_step (done + completions evs) u' /\ accepted u' = accepted u ++ enqueued evs.
Proof.
  revert done u. induction evs as [|[data|] evs IH]; intros done u Hin; simpl.
  - intros [= <-]. rewrite Nat.add_0_r, app_nil_r. auto.
  - destruct (uart_send_char [] data u) as [u1|] eqn:Hs; simpl; [|discriminate].
    intros Hr. destruct (IH done u1 (in_step_uart_send_char _ _ _ _ Hin Hs) Hr) as [Hin' Ha].
    split; [exact Hin'|].
    rewrite Ha, (accepted_uart_send_char _ _ _ _ (in_step_wf _ _ Hin) Hs), <- app_assoc.
    reflexivity.
  - destruct (Nat.ltb_spec done (length (UDR0 u))) as [Hlt|]; [|discriminate].
    intros Hr.
    destruct (IH (S done) _ (in_step_USART_TX_vect _ _ Hin Hlt) Hr) as [Hin' Ha].
    split; [now rewrite Nat.add_succ_r|].
    rewrite Ha, accepted_USART_TX_vect by apply Hin. reflexivity.
Qed.

Lemma accepted_uart_reset : accepted uart_reset = [].
Proof. reflexivity. Qed.

(** ** Claims about the serial transmitter *)

(** X1. Global FIFO for calls that do not overlap: for every sequence of
    enqueue calls that return and completion-callback invocations, each run
    to completion before the next begins, starting from the initial state,
    the bytes handed to the hardware channel followed by the bytes still
    waiting in the buffer are exactly the enqueued bytes in call order.  So
    the channel has received a prefix of the enqueued bytes, nothing
    reordered, duplicated or lost; it has received all of them when the
    buffer is empty, and that is reached after one completion callback per
    waiting byte. *)
Theorem uart_fifo (evs : list event) (u : uart) :
  run evs uart_reset = Some u ->
  UDR0 u ++ pending u = enqueued evs /\
  (uart_tx_head u = uart_tx_tail u -> UDR0 u = enqueued evs) /\
  exists u',
    run (evs ++ replicate (pending_count u) TxComplete) uart_reset = Some u' /\
    UDR0 u' = enqueued evs.
Proof.
  intros Hr.
  destruct (run_accepted _ _ _ uart_reset_wf Hr) as [Hwf Ha].
  rewrite accepted_uart_reset in Ha. simpl in Ha.
  split; [exact Ha|]. split.
  - intros He. apply (pending_count_0 u Hwf) in He.
    rewrite <- Ha. unfold accepted, pending. rewrite He. simpl. now rewrite app_nil_r.
  - destruct (run_drain (pending_count u) u Hwf eq_refl) as (u' & Hd & Hu & _).
    exists u'. rewrite run_app, Hr. simpl. split; [exact Hd | congruence].
Qed.

Lemma uart_fifo_witness :
  exists u,
    run [Enqueue "S"; Enqueue "T"; TxComplete; Enqueue "A"; Enqueue "R"] uart_reset
      = Some u /\
    UDR0 u ++ pending u = ["S"; "T"; "A"; "R"]%char.
Proof.
  eexists. split; [reflexivity|].
  apply (uart_fifo [Enqueue "S"; Enqueue "T"; TxComplete; Enqueue "A"; Enqueue "R"]).
  reflexivity.
Defined.

(** C3. In every state reached from the initial state by enqueue calls and
    completion callbacks of the hardware, every enqueued byte has completed
    transmission (the queue is empty) if and only if head equals tail and
    the transmitting flag is false; the flag is set exactly while a byte
    written to [UDR0] has not completed.  The bytes handed to the channel
    are the first enqueued bytes and the bytes waiting are the following
    ones, so when head differs from tail the completion callback hands the
    channel the oldest enqueued byte not yet handed over, which is the byte
    at tail, and advances tail modulo the capacity; when head equals tail
    it clears the flag and hands over nothing. *)
Theorem queue_empty_iff (evs : list event) (u : uart) :
  hw_run evs 0 uart_reset = Some u ->
  (length (enqueued evs) = completions evs <->
   uart_tx_head u = uart_tx_tail u /\ uart_transmitting u = false) /\
  (uart_transmitting u = true <-> (completions evs < length (UDR0 u))%nat) /\
  UDR0 u = take (length (UDR0 u)) (enqueued evs) /\
  pending u = drop (length (UDR0 u)) (enqueued evs) /\
  (uart_tx_head u <> uart_tx_tail u ->
   buffer_at u (uart_tx_tail u) = nth (length (UDR0 u)) (enqueued evs) zero /\
   USART_TX_vect u =
     mkUart (uart_tx_buffer u) (uart_tx_head u)
            ((uart_tx_tail u + 1) mod UART_BUFFER_SIZE)
            (uart_transmitting u)
            (take (S (length (UDR0 u))) (enqueued evs))) /\
  (uart_tx_head u = uart_tx_tail u ->
   USART_TX_vect u =
     mkUart (uart_tx_buffer u) (uart_tx_head u) (uart_tx_tail u) false (UDR0 u)).
Proof.
  intros Hr.
  destruct (hw_run_in_step _ _ _ _ in_step_reset Hr) as [[Hwf Hfl Hid] Ha].
  rewrite accepted_uart_reset in Ha. simpl in Ha, Hfl. unfold accepted in Ha.
  assert (length (enqueued evs)
          = (completions evs + (if uart_transmitting u then 1 else 0)
             + pending_count u)%nat) as Hlen.
  { rewrite <- Ha. rewrite length_app, pending_length, Hfl. reflexivity. }
  pose proof (pending_count_0 u Hwf) as H0.
  split; [|split; [|split; [|split; [|split]]]].
  - split.
    + intros He. split; [apply H0|]; destruct (uart_transmitting u); lia || reflexivity.
    + intros [He Ht]. apply H0 in He. rewrite Ht in Hlen. lia.
  - split.
    + intros Ht. rewrite Ht in Hfl. lia.
    + intros Hlt. destruct (uart_transmitting u); [reflexivity | lia].
  - rewrite <- Ha. now rewrite take_app_length.
  - rewrite <- Ha. now rewrite drop_app_length.
  - intros Hne. destruct (pending_USART_TX_vect u Hwf Hne) as [Hp _].
    rewrite Hp in Ha.
    assert (enqueued evs
            = (UDR0 u ++ [buffer_at u (uart_tx_tail u)]) ++ pending (USART_TX_vect u))
      as He by (rewrite <- Ha, <- app_assoc; reflexivity).
    split.
    + rewrite <- Ha, app_nth2, Nat.sub_diag by lia. reflexivity.
    + rewrite He at 1.
      rewrite take_app_length' by (rewrite length_app; simpl; lia).
      unfold USART_TX_vect.
      destruct (Z.eqb_spec (uart_tx_head u) (uart_tx_tail u)); [contradiction|].
      simpl. now rewrite next_index.
  - intros He. unfold USART_TX_vect.
    destruct (Z.eqb_spec (uart_tx_head u) (uart_tx_tail u)); [|contradiction].
    reflexivity.
Qed.

Lemma queue_empty_iff_witness :
  exists u,
    hw_run [Enqueue "S"; Enqueue "T"; Enqueue "A"; TxComplete] 0 uart_reset = Some u /\
    UDR0 u = ["S"; "T"]%char /\
    UDR0 (USART_TX_vect u) = ["S"; "T"; "A"]%char.
Proof.
  eexists. split; [reflexivity|]. split; [reflexivity|].
  destruct (queue_empty_iff [Enqueue "S"; Enqueue "T"; Enqueue "A"; TxComplete] _ eq_refl)
    as (_ & _ & _ & _ & Hhand & _).
  destruct Hhand as [_ Htx]; [discriminate|].
  rewrite Htx. reflexivity.
Defined.

(** C6. On every state whose buffer is not full, [uart_send_char] returns;
    it has written the byte at the head slot and advanced head modulo the
    capacity.  If the channel was idle and the queue is then non-empty it
    has set the transmitting flag, handed the byte at the tail slot to the
    channel and advanced tail modulo the capacity; otherwise it has done
    none of the three.  In particular, on a drained queue (flag false, head
    equal to tail) the enqueue restarts transmission with the byte just
    enqueued. *)
Theorem uart_send_char_spec (irqs : list bool) (data : ascii) (u : uart) :
  uart_wf u ->
  is_full u = false ->
  exists u',
    uart_send_char irqs data u = Some u' /\
    uart_tx_buffer u' = <[Z.to_nat (uart_tx_head u) := data]> (uart_tx_buffer u) /\
    buffer_at u' (uart_tx_head u) = data /\
    uart_tx_head u' = (uart_tx_head u + 1) mod UART_BUFFER_SIZE /\
    (if negb (uart_transmitting u) && negb (uart_tx_head u' =? uart_tx_tail u)
     then uart_transmitting u' = true /\
          UDR0 u' = UDR0 u ++ [buffer_at u' (uart_tx_tail u)] /\
          uart_tx_tail u' = (uart_tx_tail u + 1) mod UART_BUFFER_SIZE
     else uart_transmitting u' = uart_transmitting u /\
          UDR0 u' = UDR0 u /\
          uart_tx_tail u' = uart_tx_tail u) /\
    (uart_transmitting u = false -> uart_tx_head u = uart_tx_tail u ->
     uart_transmitting u' = true /\
     UDR0 u' = UDR0 u ++ [data] /\
     uart_tx_tail u' = uart_tx_head u').
Proof.
  intros [Hb Hh Ht] Hf.
  eexists. split; [apply uart_send_char_not_full, Hf|].
  pose proof (stored_head_ne_tail data u Hf) as Hne.
  assert (nth (Z.to_nat (uart_tx_head u))
              (<[Z.to_nat (uart_tx_head u) := data]> (uart_tx_buffer u)) zero = data)
    as Hnth.
  { rewrite nth_lookup, list_lookup_insert_eq; [reflexivity|]. rewrite Hb. index_arith. }
  unfold uart_start_if_idle.
  destruct (Z.eqb_spec (uart_tx_head (stored data u)) (uart_tx_tail (stored data u)));
    [contradiction|].
  unfold stored in *. simpl in *. rewrite !next_index in *.
  destruct (uart_transmitting u); simpl;
    destruct (Z.eqb_spec ((uart_tx_head u + 1) mod UART_BUFFER_SIZE) (uart_tx_tail u));
    try contradiction; unfold buffer_at; simpl;
    (split; [reflexivity|]); (split; [exact Hnth|]); (split; [reflexivity|]);
    (split; [auto|]); intros Hidle Hempty; try discriminate.
  split; [reflexivity|]. split; [now rewrite <- Hempty, Hnth | now rewrite Hempty].
Qed.

Lemma uart_send_char_spec_witness :
  exists u',
    uart_send_char [] "H" uart_reset = Some u' /\
    uart_transmitting u' = true /\ UDR0 u' = ["H"%char].
Proof.
  destruct (uart_send_char_spec [] "H" uart_reset uart_reset_wf eq_refl)
    as (u' & Hs & _ & _ & _ & _ & Hrestart).
  exists u'. split; [exact Hs|].
  destruct (Hrestart eq_refl eq_refl) as (Ht & Hu & _). auto.
Defined.

(** ** Backpressure *)

Lemma pending_count_stored (data : ascii) (u : uart) :
  uart_wf u -> is_full u = false ->
  pending_count (stored data u) = S (pending_count u).
Proof.
  intros Hwf Hf. pose proof (stored_head_ne_tail data u Hf) as Hne.
  destruct Hwf as [_ Hh Ht]. unfold pending_count, stored in *. simpl in *.
  rewrite next_index in *. index_arith.
Qed.

(** Storing a byte keeps every waiting byte in its slot and puts the new
    byte after them. *)
Lemma pending_stored (data : ascii) (u : uart) :
  uart_wf u -> is_full u = false ->
  pending (stored data u) = pending u ++ [data].
Proof.
  intros Hwf Hf. unfold pending. rewrite pending_count_stored by assumption.
  pose proof (pending_count_lt u) as Hlt. destruct Hwf as [Hb Hh Ht].
  apply slots_insert_snoc; auto. unfold pending_count. index_arith.
Qed.

Lemma stored_wf (data : ascii) (u : uart) : uart_wf u -> uart_wf (stored data u).
Proof.
  intros [Hb Hh Ht]. split; simpl; auto using next_index_range.
  now rewrite length_insert.
Qed.

Lemma uart_start_if_idle_transmitting (u : uart) :
  uart_transmitting u = true -> uart_start_if_idle u = u.
Proof. unfold uart_start_if_idle. now intros ->. Qed.

Lemma uart_send_char_busy (irqs : list bool) (data : ascii) (u : uart) :
  uart_wf u -> uart_transmitting u = true -> is_full u = false ->
  exists u',
    uart_send_char irqs data u = Some u' /\ uart_wf u' /\
    uart_transmitting u' = true /\ pending_count u' = S (pending_count u).
Proof.
  intros Hwf Htr Hf. exists (stored data u).
  rewrite uart_send_char_not_full, uart_start_if_idle_transmitting by assumption.
  auto using stored_wf, pending_count_stored.
Qed.

Lemma is_full_false (u : uart) :
  uart_wf u -> (pending_count u < 31)%nat -> is_full u = false.
Proof.
  intros Hwf Hlt. destruct (is_full u) eqn:Hf; [|reflexivity].
  apply (is_full_pending_count u Hwf) in Hf. lia.
Qed.

Lemma busy_wait_no_irq (n : nat) (nh : Z) (u : uart) :
  nh = uart_tx_tail u -> busy_wait (replicate n false) nh u = None.
Proof.
  intros He. induction n as [|n IH]; simpl;
    destruct (Z.eqb_spec nh (uart_tx_tail u)); try contradiction; auto.
Qed.

Lemma busy_wait_first_irq (n : nat) (u : uart) :
  uart_wf u -> is_full u = true ->
  busy_wait (replicate n false ++ [true])
            (uint8_t ((uart_tx_head u + 1) mod UART_BUFFER_SIZE)) u
  = Some (USART_TX_vect u).
Proof.
  intros Hwf Hf. pose proof Hf as Hf'. unfold is_full in Hf'.
  apply Z.eqb_eq in Hf'.
  induction n as [|n IH]; simpl; rewrite <- Hf', Z.eqb_refl; [|exact IH].
  destruct Hwf as [_ Hh Ht].
  unfold USART_TX_vect.
  destruct (Z.eqb_spec (uart_tx_head u) (uart_tx_tail u)) as [He|Hne]; simpl.
  - exfalso. rewrite next_index in Hf'. index_arith.
  - rewrite <- Hf', !next_index.
    destruct (Z.eqb_spec ((uart_tx_head u + 1) mod UART_BUFFER_SIZE)
                ((((uart_tx_head u + 1) mod UART_BUFFER_SIZE) + 1) mod UART_BUFFER_SIZE));
      [exfalso; index_arith | reflexivity].
Qed.

(** A full buffer releases the waiting enqueue at the first completion
    interrupt, and is full again once the byte is stored. *)
Lemma uart_send_char_after_drain (n : nat) (data : ascii) (u : uart) :
  uart_wf u -> uart_transmitting u = true -> is_full u = true ->
  exists u',
    uart_send_char (replicate n false ++ [true]) data u = Some u' /\
    uart_wf u' /\ uart_transmitting u' = true /\ is_full u' = true.
Proof.
  intros Hwf Htr Hf.
  pose proof (proj1 (is_full_pending_count u Hwf) Hf) as Hc.
  assert (uart_tx_head u <> uart_tx_tail u) as Hne.
  { intros He. apply (pending_count_0 u Hwf) in He. lia. }
  destruct (pending_USART_TX_vect u Hwf Hne) as [_ Hc'].
  pose proof (USART_TX_vect_wf u Hwf) as Hwf1.
  assert (uart_transmitting (USART_TX_vect u) = true) as Htr1.
  { unfold USART_TX_vect.
    destruct (Z.eqb_spec (uart_tx_head u) (uart_tx_tail u)); [contradiction | exact Htr]. }
  assert (uart_tx_head (USART_TX_vect u) = uart_tx_head u) as Hh1.
  { unfold USART_TX_vect. destruct (negb _); reflexivity. }
  assert (is_full (USART_TX_vect u) = false) as Hf1 by (apply is_full_false; [auto | lia]).
  exists (stored data (USART_TX_vect u)).
  split; [|split; [|split]].
  - unfold uart_send_char. rewrite busy_wait_first_irq by assumption. simpl.
    rewrite Hh1. fold (stored data (USART_TX_vect u)).
    unfold stored at 1. rewrite Hh1.
    fold (stored data (USART_TX_vect u)).
    now rewrite uart_start_if_idle_transmitting.
  - now apply stored_wf.
  - exact Htr1.
  - apply is_full_pending_count; [now apply stored_wf|].
    rewrite pending_count_stored by assumption. lia.
Qed.

Lemma uart_send_string_fills (k : nat) :
  forall (s : string) (u : uart),
    uart_wf u -> uart_transmitting u = true ->
    (pending_count u + k = 31)%nat -> (k < strlen s)%nat ->
    uart_send_string [] s u = Spinning k.
Proof.
  induction k as [|k IH]; intros s u Hwf Htr Hc Hs;
    (destruct s as [|c s]; simpl in Hs; [lia|]);
    simpl; destruct (Ascii.eqb c zero); try lia.
  - rewrite uart_send_char_full; [reflexivity|].
    apply is_full_pending_count; [assumption | lia].
  - destruct (uart_send_char_busy [] c u Hwf Htr) as (u' & -> & Hwf' & Htr' & Hc').
    { apply is_full_false; [assumption | lia]. }
    rewrite (IH s u'); auto; lia.
Qed.

Lemma uart_send_string_drain (k : nat) :
  forall (s : string) (u : uart),
    uart_wf u -> uart_transmitting u = true ->
    (pending_count u + k = 31)%nat -> (S k < strlen s)%nat ->
    uart_send_string (replicate k [] ++ [[true]]) s u = Spinning (S k).
Proof.
  induction k as [|k IH]; intros s u Hwf Htr Hc Hs;
    (destruct s as [|c s]; simpl in Hs; [lia|]);
    simpl; destruct (Ascii.eqb c zero); try lia.
  - destruct (uart_send_char_after_drain 0 c u Hwf Htr) as (u' & Hs' & Hwf' & Htr' & Hf').
    { apply is_full_pending_count; [assumption | lia]. }
    simpl in Hs'. rewrite Hs'.
    rewrite (uart_send_string_fills 0 s u'); auto; [|lia].
    apply is_full_pending_count in Hf'; [lia | assumption].
  - destruct (uart_send_char_busy [] c u Hwf Htr) as (u' & -> & Hwf' & Htr' & Hc').
    { apply is_full_false; [assumption | lia]. }
    rewrite (IH s u'); auto; lia.
Qed.

(** C4 (amended). [uart_send_char] busy-waits for as long as advancing head
    would reach tail and no completion interrupt is served, and returns at
    the first completion interrupt; the byte it then stores goes after the
    waiting bytes, none of which is overwritten.  Sending a 40-byte string
    from the initial state with no completion event, the first 32 calls
    return (the first byte goes straight to the idle channel, the next 31
    fill the usable slots) and the 33rd call blocks; it returns once a
    completion interrupt is served, and the 34th call then blocks. *)
Theorem uart_send_char_backpressure :
  (forall (n : nat) (data : ascii) (u : uart),
      is_full u = true -> uart_send_char (replicate n false) data u = None) /\
  (forall (n : nat) (data : ascii) (u : uart),
      uart_wf u -> is_full u = true ->
      exists u', uart_send_char (replicate n false ++ [true]) data u = Some u') /\
  (forall (data : ascii) (u : uart),
      uart_wf u -> is_full u = false ->
      pending (stored data u) = pending u ++ [data]) /\
  (forall (irqs : list bool) (data : ascii) (u u' : uart),
      uart_wf u -> uart_send_char irqs data u = Some u' ->
      UDR0 u' ++ pending u' = (UDR0 u ++ pending u) ++ [data]) /\
  (forall s : string,
      strlen s = 40%nat ->
      uart_send_string [] s uart_reset = Spinning 32 /\
      uart_send_string (replicate 32 [] ++ [[true]]) s uart_reset = Spinning 33).
Proof.
  split; [|split; [|split; [|split]]].
  - intros n data u Hf. unfold uart_send_char.
    rewrite busy_wait_no_irq; [reflexivity|].
    unfold is_full in Hf. now apply Z.eqb_eq in Hf.
  - intros n data u Hwf Hf. unfold uart_send_char.
    rewrite busy_wait_first_irq by assumption. simpl. eauto.
  - apply pending_stored.
  - apply accepted_uart_send_char.
  - intros s Hs. destruct s as [|c s]; simpl in Hs; [discriminate|].
    destruct (Ascii.eqb c zero) eqn:Hc; [discriminate|].
    assert (exists u1, uart_send_char [] c uart_reset = Some u1 /\ uart_wf u1 /\
                       uart_transmitting u1 = true /\ pending_count u1 = 0%nat)
      as (u1 & Hs1 & Hwf1 & Htr1 & Hc1).
    { eexists. split; [reflexivity|]. split; [|split; reflexivity].
      apply (uart_send_char_wf [] c uart_reset); [apply uart_reset_wf | reflexivity]. }
    split.
    + cbn [uart_send_string hd tl]. rewrite Hc, Hs1.
      rewrite (uart_send_string_fills 31 s u1); auto; lia.
    + change (replicate 32 [] ++ [[true]])
        with (([] : list bool) :: (replicate 31 [] ++ [[true]])).
      cbn [uart_send_string hd tl]. rewrite Hc, Hs1.
      rewrite (uart_send_string_drain 31 s u1); auto; lia.
Qed.

Lemma uart_send_char_backpressure_witness :
  uart_send_string [] "START, this string has forty characters." uart_reset
  = Spinning 32.
Proof.
  destruct uart_send_char_backpressure as (_ & _ & _ & _ & Hforty).
  exact (proj1 (Hforty "START, this string has forty characters."%string eq_refl)).
Defined.

(** C4, as stated, fails: with no completion event the 32nd
    [uart_send_char] call of a 40-byte string returns; the call that blocks
    is the 33rd, not the 32nd. *)
Lemma thirty_second_call_returns :
  strlen "START, this string has forty characters." = 40%nat /\
  uart_send_string [] "START, this string has forty characters." uart_reset
  = Spinning 32 /\
  uart_send_string [] "START, this string has forty characters." uart_reset
  <> Spinning 31.
Proof.
  split; [reflexivity|].
  assert (uart_send_string [] "START, this string has forty characters." uart_reset
          = Spinning 32) as -> by (vm_compute; reflexivity).
  split; [reflexivity | discriminate].
Qed.





(** ** Edge detection *)

Lemma land_bit (x p : Z) :
  0 <= p -> (Z.land x (Z.shiftl 1 p) =? 0) = negb (Z.testbit x p).
Proof.
  intros Hp. rewrite Z.shiftl_1_l.
  destruct (Z.testbit x p) eqn:Hx; simpl.
  - apply Z.eqb_neq. intros H0.
    assert (Z.testbit (Z.land x (2 ^ p)) p = true) as Hb
      by (rewrite Z.land_spec, Hx, Z.pow2_bits_true; auto).
    rewrite H0, Z.bits_0 in Hb. discriminate.
  - apply Z.eqb_eq, Z.bits_inj'. intros n Hn.
    rewrite Z.land_spec, Z.bits_0, Z.pow2_bits_eqb by assumption.
    destruct (Z.eqb_spec p n) as [<-|]; [now rewrite Hx | apply andb_false_r].
Qed.

Lemma fell_falling (prev cur p : Z) :
  0 <= p -> fell (Z.lxor cur prev) cur (Z.shiftl 1 p) = falling prev cur p.
Proof.
  intros Hp. unfold fell, falling. now rewrite !land_bit, negb_involutive.
Qed.

Lemma pending_count_uart_start_if_idle (u : uart) :
  uart_wf u -> (pending_count (uart_start_if_idle u) <= pending_count u)%nat.
Proof.
  intros Hwf. destruct (uart_start_if_idle_cases u) as [->|(_ & Hne & ->)]; [lia|].
  destruct (pending_USART_TX_vect u Hwf Hne) as [_ Hc]. rewrite Hc.
  unfold pending_count, USART_TX_vect.
  destruct (negb (uart_tx_head u =? uart_tx_tail u)); simpl; lia.
Qed.

Lemma isr_send_char_room (data : ascii) (st : sys) :
  uart_wf (tx st) -> (pending_count (tx st) < 31)%nat ->
  exists st', isr_send_char data st = Some st' /\ sent_by_isr [data] st st'.
Proof.
  intros Hwf Hlt. pose proof (is_full_false _ Hwf Hlt) as Hf.
  unfold isr_send_char. rewrite (uart_send_char_not_full [] data (tx st) Hf). simpl.
  eexists. split; [reflexivity|].
  assert (uart_send_char [] data (tx st) = Some (uart_start_if_idle (stored data (tx st))))
    as Hs by now apply uart_send_char_not_full.
  split; simpl; auto.
  - eapply uart_send_char_wf; eauto.
  - eapply accepted_uart_send_char; eauto.
  - etransitivity; [apply pending_count_uart_start_if_idle, stored_wf, Hwf|].
    rewrite pending_count_stored by assumption. lia.
Qed.

Lemma isr_send_pair_if (b : bool) (cmd : ascii) (st : sys) :
  uart_wf (tx st) ->
  (pending_count (tx st) + length (pair_if b cmd) <= 31)%nat ->
  exists st',
    (if b then st1 ← isr_send_char cmd st; isr_send_char NL st1 else Some st) = Some st' /\
    sent_by_isr (pair_if b cmd) st st'.
Proof.
  intros Hwf Hroom. destruct b; simpl in *.
  - destruct (isr_send_char_room cmd st Hwf) as (st1 & -> & [Hwf1 Ha1 Hc1 Hb1 Hpc1 Hd1]);
      [lia|].
    cbn [mbind option_bind].
    destruct (isr_send_char_room NL st1 Hwf1) as (st2 & -> & [Hwf2 Ha2 Hc2 Hb2 Hpc2 Hd2]);
      [simpl in *; lia|].
    exists st2. split; [reflexivity|].
    split; simpl in *; try congruence; [|lia].
    rewrite Ha2, Ha1, <- app_assoc. reflexivity.
  - exists st. split; [reflexivity|].
    split; simpl; auto; [now rewrite app_nil_r | lia].
Qed.

(** Every group evaluation whose bytes fit into the buffer returns; it has
    enqueued the bytes of [emission], stored the value read as the snapshot
    of its group and left the other snapshots alone. *)
Lemma handler_returns (g : group) (cur : Z) (st : sys) :
  uart_wf (tx st) ->
  (pending_count (tx st) + length (emission g (snapshot g st) cur) <= 31)%nat ->
  exists st',
    handler g cur st = Some st' /\
    uart_wf (tx st') /\
    accepted (tx st') = accepted (tx st) ++ emission g (snapshot g st) cur /\
    snapshot g st' = cur /\
    (forall g', g' <> g -> snapshot g' st' = snapshot g' st).
Proof.
  intros Hwf Hroom.
  destruct g; unfold handler, PCINT0_vect, PCINT1_vect, PCINT2_vect, emission in *;
    unfold BTN_UP, BTN_DOWN, BTN_LEFT, BTN_RIGHT, BTN_ACTION_A, BTN_ACTION_B;
    simpl in Hroom |- *; rewrite !fell_falling by (vm_compute; discriminate);
    rewrite app_nil_r, length_app in Hroom;
    match goal with
    | |- context [if ?b then (_ ← isr_send_char ?c st; _) else _] =>
        destruct (isr_send_pair_if b c st Hwf) as (st1 & -> & [Hwf1 Ha1 Hc1 Hb1 Hpc1 Hd1]);
          [lia|]
    end; cbn [mbind option_bind];
    match goal with
    | |- context [if ?b then (_ ← isr_send_char ?c ?s; _) else _] =>
        destruct (isr_send_pair_if b c s Hwf1) as (st2 & -> & [Hwf2 Ha2 Hc2 Hb2 Hpc2 Hd2]);
          [lia|]
    end; cbn [mbind option_bind];
    (eexists; split; [reflexivity|]); simpl;
    (split; [exact Hwf2|]);
    (split; [rewrite Ha2, Ha1, app_nil_r, <- app_assoc; reflexivity|]);
    (split; [reflexivity|]);
    intros [| |] Hg; simpl; congruence.
Qed.

(** Whenever a group evaluation returns, the snapshot of its group is the
    value it read. *)
Lemma handler_snapshot (g : group) (cur : Z) (st st' : sys) :
  handler g cur st = Some st' -> snapshot g st' = cur.
Proof.
  destruct g; unfold handler, PCINT0_vect, PCINT1_vect, PCINT2_vect; simpl;
    repeat match goal with
           | |- context [mbind _ ?o] => destruct o; simpl; try discriminate
           | |- context [if ?b then _ else _] => destruct b; simpl
           end;
    intros [= <-]; reflexivity.
Qed.


Lemma emission_cases (g : group) (prev cur : Z) :
  exists (p1 p2 : Z) (c1 c2 : ascii),
    tested g = [(p1, c1); (p2, c2)] /\
    emission g prev cur = pair_if (falling prev cur p1) c1 ++ pair_if (falling prev cur p2) c2.
Proof.
  destruct g; do 4 eexists; (split; [reflexivity|]);
    unfold emission; simpl; now rewrite app_nil_r.
Qed.

(** ** Pairs and the pin table *)



(** ** The heartbeat *)

Lemma uart_send_char_room (irqs : list bool) (data : ascii) (u : uart) :
  uart_wf u -> (pending_count u < 31)%nat ->
  exists u',
    uart_send_char irqs data u = Some u' /\ uart_wf u' /\
    accepted u' = accepted u ++ [data] /\
    (pending_count u' <= S (pending_count u))%nat.
Proof.
  intros Hwf Hlt. pose proof (is_full_false _ Hwf Hlt) as Hf.
  pose proof (uart_send_char_not_full irqs data u Hf) as Hs.
  eexists. split; [exact Hs|].
  split; [eapply uart_send_char_wf; eauto|].
  split; [eapply accepted_uart_send_char; eauto|].
  etransitivity; [apply pending_count_uart_start_if_idle, stored_wf, Hwf|].
  rewrite pending_count_stored by assumption. lia.
Qed.

(** Completion interrupts served during the delay hand waiting bytes to the
    channel and accept none. *)
Lemma delay_irqs (n : nat) (u : uart) :
  uart_wf u ->
  uart_wf (Nat.iter n USART_TX_vect u) /\
  accepted (Nat.iter n USART_TX_vect u) = accepted u /\
  (pending_count (Nat.iter n USART_TX_vect u) <= pending_count u)%nat.
Proof.
  intros Hwf. induction n as [|n (Hwf' & Ha & Hc)]; simpl; [auto|].
  split; [apply USART_TX_vect_wf, Hwf'|].
  split; [rewrite accepted_USART_TX_vect by exact Hwf'; exact Ha|].
  etransitivity; [|exact Hc].
  set (v := Nat.iter n USART_TX_vect u) in *.
  destruct (Z.eq_dec (uart_tx_head v) (uart_tx_tail v)) as [He|Hne].
  - unfold pending_count, USART_TX_vect.
    destruct (negb (uart_tx_head v =? uart_tx_tail v)) eqn:Hb; simpl; [|lia].
    rewrite He, Z.eqb_refl in Hb. discriminate.
  - destruct (pending_USART_TX_vect v Hwf' Hne) as [_ ->]. lia.
Qed.

Lemma looped_trans (b1 b2 : list ascii) (u u1 u2 : uart) :
  looped b1 u u1 -> looped b2 u1 u2 -> looped (b1 ++ b2) u u2.
Proof.
  intros [Hw1 Ha1 Hc1] [Hw2 Ha2 Hc2]. split; [exact Hw2 | |].
  - rewrite Ha2, Ha1, app_assoc. reflexivity.
  - rewrite length_app. lia.
Qed.

Lemma main_loop_app (ts1 ts2 : list tick) (cu : Z * uart) :
  main_loop (ts1 ++ ts2) cu = cu' ← main_loop ts1 cu; main_loop ts2 cu'.
Proof.
  revert cu. induction ts1 as [|t ts1 IH]; intros cu; simpl; [reflexivity|].
  destruct (main_loop_body t cu) as [cu1|]; simpl; [apply IH | reflexivity].
Qed.

(** Below the threshold an iteration only counts. *)
Lemma main_loop_quiet (ts : list tick) :
  forall (c : Z) (u : uart),
    uart_wf u -> 0 <= c -> c + Z.of_nat (length ts) < 1000 ->
    exists u',
      main_loop ts (c, u) = Some (c + Z.of_nat (length ts), u') /\ looped [] u u'.
Proof.
  induction ts as [|t ts IH]; intros c u Hwf Hc Hlen; simpl in *.
  - exists u. rewrite Z.add_0_r. split; [reflexivity|].
    split; [exact Hwf | now rewrite app_nil_r | lia].
  - unfold main_loop_body. simpl fst. simpl snd.
    assert (uint16_t (c + 1) = c + 1) as -> by index_arith.
    destruct (Z.geb_spec (c + 1) 1000) as [|_]; [lia|].
    cbn [mbind option_bind].
    destruct (delay_irqs (irqs_delay t) u Hwf) as (Hwf1 & Ha1 & Hc1).
    destruct (IH (c + 1) _ Hwf1) as (u' & Hr & Hl); [lia | lia|].
    exists u'. split.
    + rewrite Hr. do 2 f_equal. lia.
    + apply (looped_trans [] [] u (Nat.iter (irqs_delay t) USART_TX_vect u) u');
        [|exact Hl].
      split; [exact Hwf1 | now rewrite app_nil_r | simpl; lia].
Qed.

(** The iteration that reaches the threshold sends the heartbeat and
    resets the counter. *)
Lemma main_loop_beat (t : tick) (u : uart) :
  uart_wf u -> (pending_count u + 2 <= 31)%nat ->
  exists u',
    main_loop_body t (999, u) = Some (0, u') /\ looped [CMD_HEARTBEAT; NL] u u'.
Proof.
  intros Hwf Hroom. unfold main_loop_body. simpl fst. simpl snd.
  change (uint16_t (999 + 1) >=? 1000) with true. cbv iota.
  destruct (uart_send_char_room (irqs_cmd t) CMD_HEARTBEAT u Hwf)
    as (u1 & -> & Hwf1 & Ha1 & Hc1); [lia|].
  cbn [mbind option_bind].
  destruct (uart_send_char_room (irqs_nl t) NL u1 Hwf1)
    as (u2 & -> & Hwf2 & Ha2 & Hc2); [lia|].
  cbn [mbind option_bind].
  destruct (delay_irqs (irqs_delay t) u2 Hwf2) as (Hwf3 & Ha3 & Hc3).
  eexists. split; [reflexivity|].
  split; [exact Hwf3 | | simpl; lia].
  rewrite Ha3, Ha2, Ha1, <- app_assoc. reflexivity.
Qed.

Lemma main_loop_period (ts : list tick) (u : uart) :
  length ts = 1000%nat ->
  uart_wf u -> (pending_count u + 2 <= 31)%nat ->
  exists u',
    main_loop ts (0, u) = Some (0, u') /\ looped [CMD_HEARTBEAT; NL] u u'.
Proof.
  intros Hlen Hwf Hroom.
  rewrite <- (take_drop 999 ts), main_loop_app.
  assert (length (take 999 ts) = 999%nat) as Ht by (rewrite length_take; lia).
  assert (length (drop 999 ts) = 1%nat) as Hd by (rewrite length_drop; lia).
  destruct (main_loop_quiet (take 999 ts) 0 u Hwf) as (u1 & -> & [Hwf1 Ha1 Hc1]);
    [lia | lia|].
  rewrite Ht. cbn [mbind option_bind].
  destruct (drop 999 ts) as [|t [|]]; try discriminate.
  cbn [main_loop]. change (0 + Z.of_nat 999) with 999.
  destruct (main_loop_beat t u1 Hwf1) as (u' & -> & Hl); [simpl in Hc1; lia|].
  exists u'. split; [reflexivity|].
  apply (looped_trans [] _ u u1 u'); [split; assumption | exact Hl].
Qed.

Lemma heartbeats_length (k : nat) : length (heartbeats k) = (2 * k)%nat.
Proof. induction k as [|k IH]; simpl; [reflexivity | rewrite IH; lia]. Qed.

Lemma main_loop_periods (k : nat) :
  forall (ts : list tick) (u : uart),
    length ts = (1000 * k)%nat ->
    uart_wf u -> (pending_count u + 2 * k <= 31)%nat ->
    exists u',
      main_loop ts (0, u) = Some (0, u') /\ looped (heartbeats k) u u'.
Proof.
  induction k as [|k IH]; intros ts u Hlen Hwf Hroom.
  - destruct ts; [|simpl in Hlen; lia]. exists u. split; [reflexivity|].
    split; [exact Hwf | now rewrite app_nil_r | simpl; lia].
  - rewrite <- (take_drop 1000 ts), main_loop_app.
    destruct (main_loop_period (take 1000 ts) u) as (u1 & -> & Hl1);
      [rewrite length_take; lia | exact Hwf | lia|].
    cbn [mbind option_bind].
    destruct (IH (drop 1000 ts) u1) as (u' & -> & Hl);
      [rewrite length_drop; lia | apply Hl1 | destruct Hl1; simpl in *; lia|].
    exists u'. split; [reflexivity|].
    apply (looped_trans [CMD_HEARTBEAT; NL] (heartbeats k) u u1 u'); assumption.
Qed.

(** C10. Every run of 1000 consecutive main-loop iterations that starts
    with the heartbeat counter at zero and has room for two bytes, whatever
    completion interrupts are served meanwhile and with no pin-change
    interrupt, enqueues exactly the pair ['H'; '\n'] and ends with the
    counter at zero again; so [k] such runs in a row enqueue exactly [k]
    pairs. *)
Theorem heartbeat_every_1000_iterations :
  (forall (ts : list tick) (u : uart),
      length ts = 1000%nat ->
      uart_wf u -> (pending_count u + 2 <= 31)%nat ->
      exists u',
        main_loop ts (0, u) = Some (0, u') /\
        UDR0 u' ++ pending u' = (UDR0 u ++ pending u) ++ [CMD_HEARTBEAT; NL]) /\
  (forall (k : nat) (ts : list tick) (u : uart),
      length ts = (1000 * k)%nat ->
      uart_wf u -> (pending_count u + 2 * k <= 31)%nat ->
      exists u',
        main_loop ts (0, u) = Some (0, u') /\
        UDR0 u' ++ pending u' = (UDR0 u ++ pending u) ++ heartbeats k).
Proof.
  split.
  - intros ts u Hlen Hwf Hroom.
    destruct (main_loop_period ts u Hlen Hwf Hroom) as (u' & Hr & [_ Ha _]). eauto.
  - intros k ts u Hlen Hwf Hroom.
    destruct (main_loop_periods k ts u Hlen Hwf Hroom) as (u' & Hr & [_ Ha _]). eauto.
Qed.

Lemma heartbeat_every_1000_iterations_witness :
  exists u',
    main_loop (replicate 1000 (mkTick [] [] 1)) (0, uart_reset) = Some (0, u') /\
    UDR0 u' ++ pending u' = [CMD_HEARTBEAT; NL].
Proof.
  destruct heartbeat_every_1000_iterations as [Hone _].
  apply (Hone (replicate 1000 (mkTick [] [] 1)) uart_reset);
    [apply length_replicate | apply uart_reset_wf | vm_compute; lia].
Defined.

(** ** Enqueue calls that overlap *)

(** With no interrupt served inside it, a call of [main] is the call
    described by [uart_send_char]. *)
Lemma main_send_char_uninterrupted (irqs : list bool) (data : ascii) (st : sys) :
  main_send_char irqs Some Some data st
  = u ← uart_send_char irqs data (tx st); Some (with_tx st u).
Proof.
  unfold main_send_char, uart_send_char. cbn [mbind option_bind].
  destruct (busy_wait irqs _ (tx st)) as [u2|] eqn:Hw; [|reflexivity].
  cbn [mbind option_bind]. reflexivity.
Qed.

(** C2, on the code: a heartbeat call of [main] that is interrupted between
    the store of line 63 and the assignment of line 64 by the Group B
    handler (pin 3 falling) loses bytes.  After the boot message has been
    sent and has drained, four [uart_send_char] calls return, for ['H'] and
    ['\n'] from [main] and for ['D'] and ['\n'] from the handler, but once
    the queue has drained to idle again the channel has been handed only
    ['D'; '\n'] after the boot message. *)
Lemma interrupted_enqueue_loses_bytes :
  exists (u0 : uart) (st1 st2 : sys),
    uart_send_string [] ("START" ++ String NL EmptyString) uart_reset = Returned u0 /\
    main_send_char [] Some (PCINT0_vect 16) CMD_HEARTBEAT
      (mkSys (Nat.iter 6 USART_TX_vect u0) 24 0 0) = Some st1 /\
    main_send_char [] Some Some NL st1 = Some st2 /\
    let u := USART_TX_vect (USART_TX_vect (tx st2)) in
    UDR0 u = ["S"; "T"; "A"; "R"; "T"; NL; CMD_DOWN; NL]%char /\
    pending u = [] /\
    uart_tx_head u = uart_tx_tail u /\
    uart_transmitting u = false.
Proof.
  do 3 eexists. split; [vm_compute; reflexivity|].
  split; [vm_compute; reflexivity|].
  split; [vm_compute; reflexivity|].
  vm_compute. auto.
Qed.

(** * Further properties of the code *)

(** ** The transmitter between calls *)

Lemma step_idle_empty (e : event) (u u' : uart) :
  (uart_transmitting u = false -> uart_tx_head u = uart_tx_tail u) ->
  step e u = Some u' ->
  uart_transmitting u' = false -> uart_tx_head u' = uart_tx_tail u'.
Proof.
  intros Hid. destruct e as [data|]; simpl.
  - intros Hs. destruct (uart_send_char_returns _ _ _ Hs) as [Hf ->].
    rewrite uart_send_char_transmitting by assumption. discriminate.
  - intros [= <-]. unfold USART_TX_vect.
    destruct (Z.eqb_spec (uart_tx_head u) (uart_tx_tail u)) as [He|Hne]; simpl; auto.
    intros Ht. elim Hne. auto.
Qed.

(** X2. In every state reached from the initial state by enqueue calls that
    return and completion callbacks, served in any order and any number,
    the indices are inside the 32-byte array and an idle channel has an
    empty buffer: no byte ever waits in the buffer without a transmission
    under way that will fetch it. *)
Theorem idle_channel_has_empty_buffer (evs : list event) (u : uart) :
  run evs uart_reset = Some u ->
  uart_wf u /\
  (uart_transmitting u = false -> uart_tx_head u = uart_tx_tail u /\ pending u = []) /\
  (pending u <> [] -> uart_transmitting u = true).
Proof.
  assert (forall evs u0 u,
             uart_wf u0 ->
             (uart_transmitting u0 = false -> uart_tx_head u0 = uart_tx_tail u0) ->
             run evs u0 = Some u ->
             uart_wf u /\
             (uart_transmitting u = false -> uart_tx_head u = uart_tx_tail u)) as Hinv.
  { clear. induction evs as [|e evs IH]; intros u0 u Hwf Hid; simpl.
    - intros [= <-]. auto.
    - destruct (step e u0) as [u1|] eqn:Hs; simpl; [|discriminate].
      apply IH; eauto using step_wf, step_idle_empty. }
  intros Hr. destruct (Hinv evs uart_reset u uart_reset_wf (fun _ => eq_refl) Hr) as [Hwf Hid].
  assert (uart_transmitting u = false -> pending u = []) as Hp.
  { intros Ht. unfold pending.
    rewrite (proj2 (pending_count_0 u Hwf) (Hid Ht)). reflexivity. }
  split; [exact Hwf|]. split; [auto|].
  intros Hne. destruct (uart_transmitting u); [reflexivity|]. elim Hne. auto.
Qed.

Lemma idle_channel_has_empty_buffer_witness :
  exists u,
    run [Enqueue "S"; TxComplete; TxComplete; TxComplete] uart_reset = Some u /\
    uart_wf u.
Proof.
  eexists. split; [reflexivity|].
  apply (idle_channel_has_empty_buffer [Enqueue "S"; TxComplete; TxComplete; TxComplete]).
  reflexivity.
Defined.

(** X3. At most one byte is in flight: in every run of enqueue calls and
    hardware completion callbacks from the initial state, the number of
    bytes written to [UDR0] exceeds the number of completions by at most
    one, so [UDR0] is never written while the previous byte is still being
    transmitted. *)
Theorem at_most_one_byte_in_flight (evs : list event) (u : uart) :
  hw_run evs 0 uart_reset = Some u ->
  (completions evs <= length (UDR0 u) <= completions evs + 1)%nat.
Proof.
  intros Hr. destruct (hw_run_in_step _ _ _ _ in_step_reset Hr) as [[_ Hfl _] _].
  simpl in Hfl. destruct (uart_transmitting u); lia.
Qed.

Lemma at_most_one_byte_in_flight_witness :
  exists u,
    hw_run [Enqueue "S"; Enqueue "T"; Enqueue "A"; TxComplete] 0 uart_reset = Some u /\
    (1 <= length (UDR0 u) <= 2)%nat.
Proof.
  eexists. split; [reflexivity|].
  apply (at_most_one_byte_in_flight [Enqueue "S"; Enqueue "T"; Enqueue "A"; TxComplete]).
  reflexivity.
Defined.

(** X4. The buffer holds 31 bytes: on every well-formed state the full test
    of [uart_send_char] succeeds exactly when 31 bytes wait in the buffer,
    so a call made with interrupts masked fails to return exactly then,
    and never while fewer bytes are waiting. *)
Theorem full_iff_31_waiting (data : ascii) (u : uart) :
  uart_wf u ->
  (pending_count u <= 31)%nat /\
  (is_full u = true <-> pending_count u = 31%nat) /\
  (uart_send_char [] data u = None <-> pending_count u = 31%nat).
Proof.
  intros Hwf. pose proof (is_full_pending_count u Hwf) as Hfull.
  pose proof (pending_count_lt u) as Hlt.
  split; [lia|]. split; [exact Hfull|].
  destruct (is_full u) eqn:Hf.
  - rewrite uart_send_char_full by assumption. tauto.
  - rewrite uart_send_char_not_full by assumption. split; [discriminate|].
    intros Hc. apply Hfull in Hc. discriminate.
Qed.

Lemma full_iff_31_waiting_witness :
  uart_send_char [] "x" uart_reset <> None.
Proof.
  intros Hnone.
  apply (full_iff_31_waiting "x" uart_reset uart_reset_wf) in Hnone.
  vm_compute in Hnone. discriminate.
Defined.

Lemma busy_wait_full_iff (irqs : list bool) (u : uart) :
  uart_wf u -> is_full u = true ->
  (exists u', busy_wait irqs (uint8_t ((uart_tx_head u + 1) mod UART_BUFFER_SIZE)) u
              = Some u') <-> In true irqs.
Proof.
  intros Hwf Hf. pose proof Hf as Hf'. unfold is_full in Hf'.
  induction irqs as [|irq irqs IH]; simpl; rewrite Hf'.
  - split; [intros [u' [=]] | intros []].
  - destruct irq.
    + split; [auto|]. intros _.
      pose proof (busy_wait_first_irq 0 u Hwf Hf) as Hb. simpl in Hb.
      rewrite Hf' in Hb.
      exists (USART_TX_vect u). apply busy_wait_not_full.
      destruct (Z.eqb_spec (uint8_t ((uart_tx_head u + 1) mod UART_BUFFER_SIZE))
                  (uart_tx_tail (USART_TX_vect u))); [discriminate | assumption].
    + rewrite IH. split; [auto | intros [|]; [discriminate | assumption]].
Qed.

(** X5. When [uart_send_char] returns: on every well-formed state, the
    call returns if and only if the buffer is not full or a completion
    interrupt is served while it waits. *)
Theorem uart_send_char_returns_iff (irqs : list bool) (data : ascii) (u : uart) :
  uart_wf u ->
  (exists u', uart_send_char irqs data u = Some u') <->
  is_full u = false \/ In true irqs.
Proof.
  intros Hwf. destruct (is_full u) eqn:Hf.
  - rewrite <- (busy_wait_full_iff irqs u Hwf Hf). unfold uart_send_char.
    destruct (busy_wait irqs _ u) as [u1|]; simpl; split.
    + intros _. right. eauto.
    + intros _. eauto.
    + intros [u' [=]].
    + intros [[=]|[u' [=]]].
  - rewrite uart_send_char_not_full by assumption. split; eauto.
Qed.

Lemma uart_send_char_returns_iff_witness :
  exists u', uart_send_char [false; true] "x" uart_reset = Some u'.
Proof.
  apply (uart_send_char_returns_iff [false; true] "x" uart_reset uart_reset_wf).
  left. reflexivity.
Defined.

(** ** Strings *)

Lemma c_str_length (s : string) : length (c_str s) = strlen s.
Proof.
  induction s as [|c s IH]; simpl; [reflexivity|].
  destruct (Ascii.eqb c zero); simpl; [reflexivity | now rewrite IH].
Qed.

(** X6. [uart_send_string] on a string that fits: when the characters
    before the first NUL fit into the free slots, the call returns whatever
    interrupts are served, and it has enqueued exactly those characters, in
    order; nothing from the NUL on is sent. *)
Theorem uart_send_string_fits (irqs : list (list bool)) (s : string) (u : uart) :
  uart_wf u ->
  (strlen s + pending_count u <= 31)%nat ->
  exists u',
    uart_send_string irqs s u = Returned u' /\
    uart_wf u' /\
    UDR0 u' ++ pending u' = (UDR0 u ++ pending u) ++ c_str s /\
    (pending_count u' <= pending_count u + strlen s)%nat.
Proof.
  revert irqs u. induction s as [|c s IH]; intros irqs u Hwf Hroom; simpl in *.
  - exists u. rewrite app_nil_r. auto with arith.
  - destruct (Ascii.eqb c zero).
    + exists u. rewrite app_nil_r. auto with arith.
    + destruct (uart_send_char_room (hd [] irqs) c u Hwf) as (u1 & -> & Hwf1 & Ha1 & Hc1);
        [lia|].
      destruct (IH (tl irqs) u1 Hwf1) as (u' & -> & Hwf' & Ha' & Hc'); [lia|].
      exists u'. simpl. split; [reflexivity|]. split; [exact Hwf'|].
      split; [|lia].
      fold (accepted u') (accepted u1) (accepted u) in *.
      rewrite Ha', Ha1, <- app_assoc. reflexivity.
Qed.

Lemma uart_send_string_fits_witness :
  exists u',
    uart_send_string [] ("START" ++ String NL EmptyString) uart_reset = Returned u' /\
    UDR0 u' ++ pending u' = ["S"; "T"; "A"; "R"; "T"; NL]%char.
Proof.
  destruct (uart_send_string_fits [] ("START" ++ String NL EmptyString) uart_reset
              uart_reset_wf) as (u' & Hs & _ & Ha & _).
  - vm_compute. lia.
  - exists u'. split; [exact Hs | exact Ha].
Defined.

(** X7. [uart_send_string] with no completion interrupt served, on a
    transmitting queue: if the characters before the first NUL fit into the
    free slots the call returns with all of them waiting in the buffer and
    nothing more handed to the channel; otherwise exactly as many
    [uart_send_char] calls return as there are free slots and the next one
    spins.  The string is never truncated or dropped. *)
Theorem uart_send_string_no_drain (s : string) (u : uart) :
  uart_wf u ->
  uart_transmitting u = true ->
  ((strlen s + pending_count u <= 31)%nat ->
   exists u',
     uart_send_string [] s u = Returned u' /\
     pending_count u' = (pending_count u + strlen s)%nat /\
     pending u' = pending u ++ c_str s /\
     UDR0 u' = UDR0 u) /\
  ((31 < strlen s + pending_count u)%nat ->
   uart_send_string [] s u = Spinning (31 - pending_count u)).
Proof.
  intros Hwf Htr. split.
  - revert u Hwf Htr. induction s as [|c s IH]; intros u Hwf Htr Hroom; simpl in *.
    + exists u. rewrite app_nil_r. auto with arith.
    + destruct (Ascii.eqb c zero).
      * exists u. rewrite app_nil_r. auto with arith.
      * assert (is_full u = false) as Hf by (apply is_full_false; [exact Hwf | lia]).
        rewrite uart_send_char_not_full, uart_start_if_idle_transmitting by assumption.
        destruct (IH (stored c u)) as (u' & -> & Hc' & Hp' & Hu');
          [now apply stored_wf | exact Htr
          | rewrite pending_count_stored by assumption; lia |].
        exists u'. simpl. split; [reflexivity|].
        rewrite Hc', Hp', Hu', pending_count_stored, pending_stored by assumption.
        rewrite <- app_assoc. repeat split. lia.
  - intros Hroom. pose proof (pending_count_lt u) as Hlt.
    apply uart_send_string_fills; auto; lia.
Qed.

Lemma uart_send_string_no_drain_witness :
  uart_send_string [] "0123456789012345678901234567890123456789"
    (uart_start_if_idle (stored "x" uart_reset))
  = Spinning 31.
Proof.
  destruct (uart_send_string_no_drain "0123456789012345678901234567890123456789"
              (uart_start_if_idle (stored "x" uart_reset))) as [_ Hblocks].
  - apply uart_start_if_idle_wf, stored_wf, uart_reset_wf.
  - reflexivity.
  - apply Hblocks. vm_compute. lia.
Defined.

(** ** Draining *)

Lemma USART_TX_vect_idle (u : uart) :
  uart_tx_head u = uart_tx_tail u -> uart_transmitting u = false ->
  USART_TX_vect u = u.
Proof.
  intros He Ht. unfold USART_TX_vect. rewrite He, Z.eqb_refl. simpl.
  destruct u; simpl in *. congruence.
Qed.

(** X8. Completion callbacks alone drain the queue and then rest: after as
    many callbacks as bytes are waiting, every waiting byte has been handed
    to the channel, in order; the next callback clears the transmitting
    flag and hands over nothing, and any further callback changes
    nothing. *)
Theorem callbacks_drain_then_rest (u : uart) :
  uart_wf u ->
  exists u1 u2 : uart,
    run (replicate (pending_count u) TxComplete) u = Some u1 /\
    UDR0 u1 = UDR0 u ++ pending u /\
    pending u1 = [] /\
    USART_TX_vect u1 = u2 /\
    uart_transmitting u2 = false /\
    UDR0 u2 = UDR0 u1 /\
    (forall n : nat, Nat.iter n USART_TX_vect u2 = u2).
Proof.
  intros Hwf.
  destruct (run_drain (pending_count u) u Hwf eq_refl) as (u1 & Hr & Hu & He).
  destruct (run_accepted _ _ _ Hwf Hr) as [Hwf1 _].
  exists u1, (USART_TX_vect u1).
  assert (USART_TX_vect u1
          = mkUart (uart_tx_buffer u1) (uart_tx_head u1) (uart_tx_tail u1) false (UDR0 u1))
    as Htx.
  { unfold USART_TX_vect. now rewrite He, Z.eqb_refl. }
  split; [exact Hr|]. split; [exact Hu|]. split.
  - unfold pending. now rewrite (proj2 (pending_count_0 u1 Hwf1) He).
  - split; [reflexivity|]. rewrite Htx. simpl. split; [reflexivity|].
    split; [reflexivity|].
    intros n. induction n as [|n IH]; simpl; [reflexivity|].
    rewrite IH. apply USART_TX_vect_idle; [exact He | reflexivity].
Qed.

Lemma callbacks_drain_then_rest_witness :
  exists u1 : uart,
    run (replicate 2 TxComplete) (stored "b" (stored "a" uart_reset)) = Some u1 /\
    UDR0 u1 = ["a"; "b"]%char.
Proof.
  destruct (callbacks_drain_then_rest (stored "b" (stored "a" uart_reset)))
    as (u1 & u2 & Hr & Hu & _).
  - apply stored_wf, stored_wf, uart_reset_wf.
  - exists u1. split; [exact Hr | exact Hu].
Defined.

(** ** Calls of [main] interrupted by the completion callback only *)

Lemma iter_USART_TX_vect_head (n : nat) (u : uart) :
  uart_tx_head (Nat.iter n USART_TX_vect u) = uart_tx_head u.
Proof.
  induction n as [|n IH]; simpl; [reflexivity|]. rewrite <- IH.
  unfold USART_TX_vect. destruct (negb _); reflexivity.
Qed.

Lemma USART_TX_vect_store_at_head (data : ascii) (u : uart) :
  uart_wf u ->
  USART_TX_vect (store_at_head data u) = store_at_head data (USART_TX_vect u).
Proof.
  intros [Hb Hh Ht]. unfold USART_TX_vect, store_at_head. simpl.
  destruct (Z.eqb_spec (uart_tx_head u) (uart_tx_tail u)) as [He|Hne]; simpl;
    [reflexivity|].
  f_equal. f_equal. f_equal. unfold buffer_at. simpl.
  rewrite !nth_lookup, list_lookup_insert_ne; [reflexivity|]. lia.
Qed.

Lemma iter_USART_TX_vect_store_at_head (n : nat) (data : ascii) (u : uart) :
  uart_wf u ->
  Nat.iter n USART_TX_vect (store_at_head data u)
  = store_at_head data (Nat.iter n USART_TX_vect u).
Proof.
  intros Hwf. induction n as [|n IH]; simpl; [reflexivity|].
  rewrite IH. apply USART_TX_vect_store_at_head, delay_irqs, Hwf.
Qed.

(** X9. A [uart_send_char] call of [main] that is interrupted by completion
    callbacks only, in any number after line 61 and after line 63, is safe:
    whenever it returns it has enqueued exactly its byte after the bytes
    accepted before, and it returns whenever the buffer is not full.  The
    consumer interrupt alone does not disturb a producer. *)
Theorem main_send_char_completion_safe
    (irqs : list bool) (j k : nat) (data : ascii) (st : sys) :
  uart_wf (tx st) ->
  (forall st' : sys,
      main_send_char irqs (completions_served j) (completions_served k) data st
      = Some st' ->
      uart_wf (tx st') /\
      UDR0 (tx st') ++ pending (tx st') = (UDR0 (tx st) ++ pending (tx st)) ++ [data] /\
      last_portb st' = last_portb st /\
      last_portc st' = last_portc st /\
      last_portd st' = last_portd st) /\
  (is_full (tx st) = false ->
   exists st' : sys,
     main_send_char irqs (completions_served j) (completions_served k) data st
     = Some st').
Proof.
  intros Hwf.
  destruct (delay_irqs j (tx st) Hwf) as (Hwfj & Haj & Hcj).
  pose proof (iter_USART_TX_vect_head j (tx st)) as Hhj.
  unfold main_send_char, completions_served. cbn [mbind option_bind with_tx tx].
  set (nh := uint8_t ((uart_tx_head (tx st) + 1) mod UART_BUFFER_SIZE)).
  set (uj := Nat.iter j USART_TX_vect (tx st)) in *.
  split.
  - intros st'.
    destruct (busy_wait irqs nh uj) as [u2|] eqn:Hw; cbn [mbind option_bind];
      [|discriminate].
    pose proof (busy_wait_wf _ _ _ _ Hwfj Hw) as Hwf2.
    pose proof (busy_wait_head _ _ _ _ Hw) as Hh2.
    pose proof (busy_wait_exit _ _ _ _ Hw) as Hex.
    pose proof (accepted_busy_wait _ _ _ _ Hwfj Hw) as Ha2.
    change (mkUart (<[Z.to_nat (uart_tx_head u2) := data]> (uart_tx_buffer u2))
                   (uart_tx_head u2) (uart_tx_tail u2) (uart_transmitting u2) (UDR0 u2))
      with (store_at_head data u2).
    cbn [tx last_portb last_portc last_portd].
    rewrite iter_USART_TX_vect_store_at_head by exact Hwf2.
    destruct (delay_irqs k u2 Hwf2) as (Hwfk & Hak & Hck).
    pose proof (iter_USART_TX_vect_head k u2) as Hhk.
    set (w := Nat.iter k USART_TX_vect u2) in *.
    assert (nh = uint8_t ((uart_tx_head w + 1) mod UART_BUFFER_SIZE)) as Hnh
      by (unfold nh; congruence).
    assert (is_full u2 = false) as Hf2.
    { unfold is_full. apply Z.eqb_neq. rewrite Hh2, Hhj. exact Hex. }
    assert (is_full w = false) as Hfw.
    { apply is_full_false; [exact Hwfk|].
      pose proof (pending_count_lt u2) as Hlt.
      destruct (Nat.eq_dec (pending_count u2) 31%nat) as [He|Hne].
      - apply (is_full_pending_count u2 Hwf2) in He. congruence.
      - lia. }
    assert (uart_send_char [] data w
            = Some (uart_start_if_idle
                      (mkUart (uart_tx_buffer (store_at_head data w)) nh
                              (uart_tx_tail (store_at_head data w))
                              (uart_transmitting (store_at_head data w))
                              (UDR0 (store_at_head data w))))) as Hs.
    { rewrite uart_send_char_not_full by exact Hfw. unfold stored. now rewrite Hnh. }
    intros [= <-]. cbn [tx last_portb last_portc last_portd].
    split; [apply (uart_send_char_wf _ _ _ _ Hwfk Hs)|].
    split; [|auto].
    pose proof (accepted_uart_send_char _ _ _ _ Hwfk Hs) as Ha.
    transitivity (accepted w ++ [data]); [exact Ha|].
    rewrite Hak, Ha2, Haj. reflexivity.
  - intros Hf.
    rewrite busy_wait_not_full; cbn [mbind option_bind]; [eauto|].
    assert (is_full uj = false) as Hfj.
    { apply is_full_false; [exact Hwfj|].
      pose proof (pending_count_lt (tx st)) as Hlt.
      destruct (Nat.eq_dec (pending_count (tx st)) 31%nat) as [He|Hne].
      - apply (is_full_pending_count (tx st) Hwf) in He. congruence.
      - lia. }
    unfold is_full in Hfj. apply Z.eqb_neq in Hfj. rewrite Hhj in Hfj. exact Hfj.
Qed.

Lemma main_send_char_completion_safe_witness :
  exists st' : sys,
    main_send_char [] (completions_served 1) (completions_served 2) "H"
      (mkSys (stored "b" (stored "a" uart_reset)) 24 0 0) = Some st' /\
    UDR0 (tx st') ++ pending (tx st') = ["a"; "b"; "H"]%char.
Proof.
  destruct (main_send_char_completion_safe [] 1 2 "H"
              (mkSys (stored "b" (stored "a" uart_reset)) 24 0 0))
    as [Hsafe Hret].
  - apply stored_wf, stored_wf, uart_reset_wf.
  - destruct (Hret eq_refl) as (st' & Hs). exists st'. split; [exact Hs|].
    apply (Hsafe st' Hs).
Defined.

(** ** Group evaluations *)

Lemma emission_length (g : group) (prev cur : Z) :
  (length (emission g prev cur) <= 4)%nat.
Proof.
  destruct (emission_cases g prev cur) as (p1 & p2 & c1 & c2 & _ & ->).
  destruct (falling prev cur p1), (falling prev cur p2); simpl; lia.
Qed.

Lemma last_cons_default (x d : Z) (l : list Z) :
  List.last (x :: l) d = List.last l x.
Proof.
  revert x d. induction l as [|y l IH]; intros x d; [reflexivity|].
  change (List.last (x :: y :: l) d) with (List.last (y :: l) d).
  rewrite (IH y d), (IH y x). reflexivity.
Qed.

(** [handler_returns] with the bound on the bytes left waiting. *)
Lemma handler_returns_count (g : group) (cur : Z) (st : sys) :
  uart_wf (tx st) ->
  (pending_count (tx st) + length (emission g (snapshot g st) cur) <= 31)%nat ->
  exists st',
    handler g cur st = Some st' /\
    uart_wf (tx st') /\
    accepted (tx st') = accepted (tx st) ++ emission g (snapshot g st) cur /\
    (pending_count (tx st')
     <= pending_count (tx st) + length (emission g (snapshot g st) cur))%nat /\
    st' = set_snapshot g cur (with_tx st (tx st')).
Proof.
  intros Hwf Hroom.
  destruct g; unfold handler, PCINT0_vect, PCINT1_vect, PCINT2_vect, emission in *;
    unfold BTN_UP, BTN_DOWN, BTN_LEFT, BTN_RIGHT, BTN_ACTION_A, BTN_ACTION_B;
    simpl in Hroom |- *; rewrite !fell_falling by (vm_compute; discriminate);
    rewrite app_nil_r, length_app in *;
    match goal with
    | |- context [if ?b then (_ ← isr_send_char ?c st; _) else _] =>
        destruct (isr_send_pair_if b c st Hwf) as (st1 & -> & [Hwf1 Ha1 Hc1 Hb1 Hpc1 Hd1]);
          [lia|]
    end; cbn [mbind option_bind];
    match goal with
    | |- context [if ?b then (_ ← isr_send_char ?c ?s; _) else _] =>
        destruct (isr_send_pair_if b c s Hwf1) as (st2 & -> & [Hwf2 Ha2 Hc2 Hb2 Hpc2 Hd2]);
          [lia|]
    end; cbn [mbind option_bind];
    (eexists; split; [reflexivity|]); simpl;
    (split; [exact Hwf2|]);
    (split; [rewrite Ha2, Ha1, <- app_assoc; reflexivity|]);
    (split; [lia|]);
    unfold with_tx; simpl; congruence.
Qed.

(** X10. A sequence of evaluations of one group: when the bytes fit into
    the buffer, evaluating the group on a sequence of values read from its
    port returns, and it has enqueued, for each value in turn, the pairs of
    the pins that fell between the value before and that value; the
    snapshot ends as the last value read.  Every falling edge of the
    sequence is reported once, bounces included. *)
Theorem handler_run_emissions (g : group) (curs : list Z) (st : sys) :
  uart_wf (tx st) ->
  (pending_count (tx st) + length (emissions g (snapshot g st) curs) <= 31)%nat ->
  exists st',
    handler_run g curs st = Some st' /\
    uart_wf (tx st') /\
    UDR0 (tx st') ++ pending (tx st')
    = (UDR0 (tx st) ++ pending (tx st)) ++ emissions g (snapshot g st) curs /\
    snapshot g st' = List.last curs (snapshot g st).
Proof.
  revert st. induction curs as [|cur curs IH]; intros st Hwf Hroom.
  - exists st. simpl. rewrite app_nil_r. auto.
  - cbn [emissions] in Hroom. rewrite length_app in Hroom.
    destruct (handler_returns_count g cur st Hwf) as (st1 & Hh & Hwf1 & Ha1 & Hc1 & Hst1);
      [lia|].
    assert (snapshot g st1 = cur) as Hs1 by (apply (handler_snapshot g cur st), Hh).
    destruct (IH st1 Hwf1) as (st' & Hr & Hwf' & Ha' & Hs'); [rewrite Hs1; lia|].
    exists st'. cbn [handler_run emissions]. rewrite Hh. cbn [mbind option_bind].
    split; [exact Hr|]. split; [exact Hwf'|]. split.
    + fold (accepted (tx st')) (accepted (tx st1)) (accepted (tx st)) in *.
      rewrite Ha', Ha1, Hs1, <- app_assoc. reflexivity.
    + rewrite Hs', Hs1. symmetry. apply last_cons_default.
Qed.

Lemma handler_run_emissions_witness :
  exists st',
    handler_run GroupB [16; 24; 16; 0] (mkSys uart_reset 24 0 0) = Some st' /\
    UDR0 (tx st') ++ pending (tx st')
    = [CMD_DOWN; NL; CMD_DOWN; NL; CMD_RIGHT; NL] /\
    last_portb st' = 0.
Proof.
  destruct (handler_run_emissions GroupB [16; 24; 16; 0] (mkSys uart_reset 24 0 0)
              uart_reset_wf) as (st' & Hr & _ & Ha & Hs).
  - vm_compute. lia.
  - exists st'. split; [exact Hr|]. split; [exact Ha | exact Hs].
Defined.

(** X11. An evaluation that finds the port as the snapshot has it does
    nothing at all: it returns, even on a full buffer, and leaves the
    transmitter and the three snapshots as they were.  A spurious
    pin-change interrupt is harmless. *)
Theorem handler_without_change (g : group) (st : sys) :
  handler g (snapshot g st) st = Some st.
Proof.
  destruct g, st as [u b c d]; unfold handler, PCINT0_vect, PCINT1_vect, PCINT2_vect;
    simpl; rewrite Z.lxor_nilpotent; reflexivity.
Qed.

(** X12. Only the monitored pins count: two values read that agree on the
    pins the handler tests make the handler do the same to the transmitter,
    whatever the other bits of the port are. *)
Theorem handler_monitored_bits_only (g : group) (cur cur' : Z) (st : sys) :
  (forall (p : Z) (cmd : ascii),
      In (p, cmd) (tested g) -> Z.testbit cur p = Z.testbit cur' p) ->
  tx <$> handler g cur st = tx <$> handler g cur' st.
Proof.
  intros Hbits.
  assert (forall (p : Z) (cmd : ascii),
             In (p, cmd) (tested g) ->
             falling (snapshot g st) cur p = falling (snapshot g st) cur' p) as Hfall.
  { intros p cmd Hin. unfold falling.
    now rewrite !Z.lxor_spec, (Hbits p cmd Hin). }
  destruct g; unfold handler, PCINT0_vect, PCINT1_vect, PCINT2_vect;
    unfold BTN_UP, BTN_DOWN, BTN_LEFT, BTN_RIGHT, BTN_ACTION_A, BTN_ACTION_B;
    cbv zeta; rewrite !fell_falling by (vm_compute; discriminate);
    simpl snapshot in Hfall;
    [ rewrite (Hfall PB3 CMD_DOWN), (Hfall PB4 CMD_RIGHT) by (simpl; auto)
    | rewrite (Hfall PC3 CMD_UP), (Hfall PC2 CMD_LEFT) by (simpl; auto)
    | rewrite (Hfall PD5 CMD_ACTION_A), (Hfall PD2 CMD_ACTION_B) by (simpl; auto) ];
    repeat (cbn [mbind option_bind];
            match goal with
            | |- context [if ?b then _ else _] => destruct b
            | |- context [isr_send_char ?c ?s] => destruct (isr_send_char c s)
            end);
    reflexivity.
Qed.

Lemma handler_monitored_bits_only_witness :
  tx <$> handler GroupB 16 (mkSys uart_reset 24 0 0)
  = tx <$> handler GroupB 215 (mkSys uart_reset 24 0 0).
Proof.
  apply handler_monitored_bits_only.
  intros p cmd [H|[H|[]]]; injection H as <- <-; reflexivity.
Defined.

(** X13. Released pins send nothing: when every monitored pin of the group
    reads high, the evaluation returns, even on a full buffer, with the
    transmitter untouched and the value stored as the snapshot, whatever
    the snapshot was.  A rising edge is never reported. *)
Theorem handler_all_high (g : group) (cur : Z) (st : sys) :
  (forall (p : Z) (cmd : ascii), In (p, cmd) (tested g) -> Z.testbit cur p = true) ->
  handler g cur st = Some (set_snapshot g cur st).
Proof.
  intros Hhigh.
  assert (forall (p : Z) (cmd : ascii),
             In (p, cmd) (tested g) -> falling (snapshot g st) cur p = false) as Hfall.
  { intros p cmd Hin. unfold falling. rewrite (Hhigh p cmd Hin). apply andb_false_r. }
  destruct g; unfold handler, PCINT0_vect, PCINT1_vect, PCINT2_vect;
    unfold BTN_UP, BTN_DOWN, BTN_LEFT, BTN_RIGHT, BTN_ACTION_A, BTN_ACTION_B;
    cbv zeta; rewrite !fell_falling by (vm_compute; discriminate);
    simpl snapshot in Hfall;
    [ rewrite (Hfall PB3 CMD_DOWN), (Hfall PB4 CMD_RIGHT) by (simpl; auto)
    | rewrite (Hfall PC3 CMD_UP), (Hfall PC2 CMD_LEFT) by (simpl; auto)
    | rewrite (Hfall PD5 CMD_ACTION_A), (Hfall PD2 CMD_ACTION_B) by (simpl; auto) ];
    reflexivity.
Qed.

Lemma handler_all_high_witness :
  handler GroupC 12 (mkSys uart_reset 0 4 0) = Some (mkSys uart_reset 0 12 0).
Proof.
  apply (handler_all_high GroupC 12 (mkSys uart_reset 0 4 0)).
  intros p cmd [H|[H|[]]]; injection H as <- <-; reflexivity.
Defined.

(** ** When a group evaluation does not return *)

Lemma isr_send_char_busy (data : ascii) (st : sys) :
  uart_wf (tx st) -> uart_transmitting (tx st) = true ->
  ((pending_count (tx st) < 31)%nat ->
   exists st',
     isr_send_char data st = Some st' /\ uart_wf (tx st') /\
     uart_transmitting (tx st') = true /\
     pending_count (tx st') = S (pending_count (tx st))) /\
  (pending_count (tx st) = 31%nat -> isr_send_char data st = None).
Proof.
  intros Hwf Htr. unfold isr_send_char. split.
  - intros Hlt.
    destruct (uart_send_char_busy [] data (tx st) Hwf Htr) as (u' & -> & Hwf' & Htr' & Hc');
      [now apply is_full_false|].
    eexists. split; [reflexivity|]. simpl. auto.
  - intros Hc. rewrite uart_send_char_full; [reflexivity|].
    now apply is_full_pending_count.
Qed.

Lemma isr_send_pair_if_busy (b : bool) (cmd : ascii) (st : sys) :
  uart_wf (tx st) -> uart_transmitting (tx st) = true ->
  ((pending_count (tx st) + length (pair_if b cmd) <= 31)%nat ->
   exists st',
     (if b then st1 ← isr_send_char cmd st; isr_send_char NL st1 else Some st) = Some st' /\
     uart_wf (tx st') /\ uart_transmitting (tx st') = true /\
     pending_count (tx st') = (pending_count (tx st) + length (pair_if b cmd))%nat) /\
  ((31 < pending_count (tx st) + length (pair_if b cmd))%nat ->
   (if b then st1 ← isr_send_char cmd st; isr_send_char NL st1 else Some st) = None).
Proof.
  intros Hwf Htr. pose proof (pending_count_lt (tx st)) as Hlt.
  destruct (isr_send_char_busy cmd st Hwf Htr) as [Hok Hfull].
  destruct b; simpl length.
  - split; intros Hroom.
    + destruct Hok as (st1 & -> & Hwf1 & Htr1 & Hc1); [lia|]. cbn [mbind option_bind].
      destruct (isr_send_char_busy NL st1 Hwf1 Htr1) as [Hok2 _].
      destruct Hok2 as (st2 & -> & Hwf2 & Htr2 & Hc2); [lia|].
      exists st2. split; [reflexivity|]. split; [exact Hwf2|].
      split; [exact Htr2 | lia].
    + destruct (Nat.eq_dec (pending_count (tx st)) 31%nat) as [He|Hne].
      * now rewrite Hfull.
      * destruct Hok as (st1 & -> & Hwf1 & Htr1 & Hc1); [lia|]. cbn [mbind option_bind].
        destruct (isr_send_char_busy NL st1 Hwf1 Htr1) as [_ Hfull2].
        apply Hfull2. lia.
  - split; intros Hroom; [|lia]. exists st.
    split; [reflexivity|]. split; [exact Hwf|]. split; [exact Htr | lia].
Qed.

Lemma handler_blocks (g : group) (cur : Z) (st : sys) :
  uart_wf (tx st) -> uart_transmitting (tx st) = true ->
  (31 < pending_count (tx st) + length (emission g (snapshot g st) cur))%nat ->
  handler g cur st = None.
Proof.
  intros Hwf Htr Hroom.
  destruct g; unfold handler, PCINT0_vect, PCINT1_vect, PCINT2_vect, emission in *;
    unfold BTN_UP, BTN_DOWN, BTN_LEFT, BTN_RIGHT, BTN_ACTION_A, BTN_ACTION_B;
    simpl in Hroom |- *; rewrite !fell_falling by (vm_compute; discriminate);
    rewrite app_nil_r, length_app in Hroom;
    match goal with
    | |- context [if ?b then (_ ← isr_send_char ?c st; _) else _] =>
        destruct (isr_send_pair_if_busy b c st Hwf Htr) as [Hok1 Hno1];
        destruct (Nat.le_gt_cases (pending_count (tx st) + length (pair_if b c)) 31)
          as [Hfit|Hnofit];
        [ destruct (Hok1 Hfit) as (st1 & -> & Hwf1 & Htr1 & Hc1)
        | rewrite (Hno1 Hnofit); reflexivity ]
    end; cbn [mbind option_bind];
    match goal with
    | |- context [if ?b then (_ ← isr_send_char ?c ?s; _) else _] =>
        destruct (isr_send_pair_if_busy b c s Hwf1 Htr1) as [_ Hno2];
        rewrite Hno2 by lia; reflexivity
    end.
Qed.

(** X14. A group evaluation returns exactly when its bytes fit: on a state
    of the running program (indices in range, buffer empty when the channel
    is idle), the handler returns if and only if the bytes waiting plus the
    bytes it has to send are at most 31.  Otherwise it spins in
    [uart_send_char] with interrupts masked, so nothing can drain the
    buffer and the handler never returns. *)
Theorem handler_returns_iff (g : group) (cur : Z) (st : sys) :
  uart_wf (tx st) ->
  (uart_transmitting (tx st) = false -> uart_tx_head (tx st) = uart_tx_tail (tx st)) ->
  (exists st', handler g cur st = Some st') <->
  (pending_count (tx st) + length (emission g (snapshot g st) cur) <= 31)%nat.
Proof.
  intros Hwf Hid. split.
  - intros [st' Hh].
    destruct (Nat.le_gt_cases
                (pending_count (tx st) + length (emission g (snapshot g st) cur)) 31)
      as [Hfit|Hnofit]; [exact Hfit|].
    pose proof (emission_length g (snapshot g st) cur) as Hlen.
    destruct (uart_transmitting (tx st)) eqn:Htr.
    + rewrite (handler_blocks g cur st Hwf Htr Hnofit) in Hh. discriminate.
    + apply (pending_count_0 _ Hwf) in Hid; [lia | reflexivity].
  - intros Hfit.
    destruct (handler_returns g cur st Hwf Hfit) as (st' & Hh & _). eauto.
Qed.

Lemma handler_returns_iff_witness :
  exists st', handler GroupB 0 (mkSys uart_reset 24 0 0) = Some st'.
Proof.
  apply (handler_returns_iff GroupB 0 (mkSys uart_reset 24 0 0) uart_reset_wf).
  - reflexivity.
  - vm_compute. lia.
Defined.

(** X15. The groups do not disturb each other: when the bytes of both fit,
    an evaluation of one group followed by an evaluation of another group
    returns, each sends what its own snapshot and its own value read
    determine, in the order of the evaluations, and each ends with its own
    value as its snapshot. *)
Theorem handlers_of_distinct_groups (g1 g2 : group) (c1 c2 : Z) (st : sys) :
  g1 <> g2 ->
  uart_wf (tx st) ->
  (pending_count (tx st) + length (emission g1 (snapshot g1 st) c1)
   + length (emission g2 (snapshot g2 st) c2) <= 31)%nat ->
  exists st',
    (st1 ← handler g1 c1 st; handler g2 c2 st1) = Some st' /\
    UDR0 (tx st') ++ pending (tx st')
    = (UDR0 (tx st) ++ pending (tx st))
        ++ emission g1 (snapshot g1 st) c1 ++ emission g2 (snapshot g2 st) c2 /\
    snapshot g1 st' = c1 /\
    snapshot g2 st' = c2.
Proof.
  intros Hne Hwf Hroom.
  destruct (handler_returns_count g1 c1 st Hwf) as (st1 & Hh1 & Hwf1 & Ha1 & Hc1 & Hst1);
    [lia|].
  assert (snapshot g2 st1 = snapshot g2 st) as Hs21.
  { rewrite Hst1. destruct g1, g2; try contradiction; reflexivity. }
  assert (snapshot g1 st1 = c1) as Hs11 by (apply (handler_snapshot g1 c1 st), Hh1).
  destruct (handler_returns_count g2 c2 st1 Hwf1) as (st' & Hh2 & Hwf2 & Ha2 & Hc2 & Hst2);
    [rewrite Hs21; lia|].
  exists st'. rewrite Hh1. cbn [mbind option_bind].
  split; [exact Hh2|]. split.
  - fold (accepted (tx st')) (accepted (tx st)).
    rewrite Ha2, Ha1, Hs21, <- app_assoc. reflexivity.
  - split; [|apply (handler_snapshot g2 c2 st1), Hh2].
    rewrite Hst2, <- Hs11. destruct g1, g2; try contradiction; reflexivity.
Qed.

Lemma handlers_of_distinct_groups_witness :
  exists st',
    (st1 ← handler GroupD 4 (mkSys uart_reset 24 12 36); handler GroupB 8 st1) = Some st' /\
    UDR0 (tx st') ++ pending (tx st') = [CMD_ACTION_A; NL; CMD_RIGHT; NL] /\
    snapshot GroupD st' = 4 /\ snapshot GroupB st' = 8.
Proof.
  apply (handlers_of_distinct_groups GroupD GroupB 4 8 (mkSys uart_reset 24 12 36));
    [discriminate | apply uart_reset_wf | vm_compute; lia].
Defined.

(** ** Start-up *)

(** X16. The snapshots taken by [setup_pin_change_interrupts] make the
    first report right: the transmitter is left alone, each snapshot is the
    value read from its port, an evaluation that reads the same value sends
    nothing, and a monitored pin that read high at set-up is reported the
    first time its group is evaluated with the pin low (when the bytes
    fit). *)
Theorem setup_pin_change_interrupts_snapshots
    (io : avr_io) (PINB PINC PIND : Z) (st : sys) (g : group) (cur p : Z) (cmd : ascii) :
  let st0 := snd (setup_pin_change_interrupts io PINB PINC PIND st) in
  let read := match g with GroupB => PINB | GroupC => PINC | GroupD => PIND end in
  tx st0 = tx st /\
  snapshot g st0 = read /\
  handler g read st0 = Some st0 /\
  (uart_wf (tx st) ->
   (pending_count (tx st) + 4 <= 31)%nat ->
   In (p, cmd) (tested g) ->
   Z.testbit read p = true ->
   Z.testbit cur p = false ->
   exists (st' : sys) (emitted : list ascii),
     handler g cur st0 = Some st' /\
     UDR0 (tx st') ++ pending (tx st') = (UDR0 (tx st) ++ pending (tx st)) ++ emitted /\
     In cmd emitted).
Proof.
  intros st0 read.
  assert (snapshot g st0 = read) as Hs by (destruct g; reflexivity).
  split; [reflexivity|]. split; [exact Hs|]. split.
  - rewrite <- Hs. apply handler_without_change.
  - intros Hwf Hroom Hin Hhigh Hlow.
    pose proof (emission_length g (snapshot g st0) cur) as Hlen.
    destruct (handler_returns g cur st0 Hwf) as (st' & Hh & _ & Ha & _);
      [change (tx st0) with (tx st); lia|].
    exists st', (emission g (snapshot g st0) cur).
    split; [exact Hh|]. split; [exact Ha|].
    assert (falling (snapshot g st0) cur p = true) as Hf.
    { unfold falling. now rewrite Z.lxor_spec, Hs, Hlow, Hhigh. }
    destruct (emission_cases g (snapshot g st0) cur) as (p1 & p2 & c1 & c2 & Ht & ->).
    rewrite Ht in Hin. apply in_app_iff.
    destruct Hin as [[= <- <-]|[[= <- <-]|[]]]; rewrite Hf; simpl; auto.
Qed.

Lemma setup_pin_change_interrupts_snapshots_witness :
  exists (st' : sys) (emitted : list ascii),
    handler GroupC 8
      (snd (setup_pin_change_interrupts (mkAvrIo 0 1 2 3 4 2 3 2 5) 24 12 36
              (mkSys uart_reset 0 0 0))) = Some st' /\
    UDR0 (tx st') ++ pending (tx st') = emitted /\
    In CMD_LEFT emitted.
Proof.
  apply (setup_pin_change_interrupts_snapshots (mkAvrIo 0 1 2 3 4 2 3 2 5) 24 12 36
           (mkSys uart_reset 0 0 0) GroupC 8 PC2 CMD_LEFT);
    [apply uart_reset_wf | vm_compute; lia | simpl; auto | reflexivity | reflexivity].
Defined.

Lemma testbit_uint8_t (z p : Z) : 0 <= p < 8 -> Z.testbit (uint8_t z) p = Z.testbit z p.
Proof.
  intros Hp. unfold uint8_t. change 256 with (2 ^ 8).
  apply Z.mod_pow2_bits_low. lia.
Qed.

Lemma testbit_button (k p : Z) : 0 <= k -> Z.testbit (Z.shiftl 1 k) p = (k =? p).
Proof. intros Hk. rewrite Z.shiftl_1_l. now apply Z.pow2_bits_eqb. Qed.

(** X17. The pin configuration of [main] touches the button pins only: in
    each direction register the bits of the monitored pins are cleared
    (input) and in each output register they are set (pull-up), and every
    other bit of the six registers keeps its value. *)
Theorem main_configure_pins_bits (r : ports) (g : group) (p : Z) :
  0 <= p < 8 ->
  Z.testbit (ddr g (main_configure_pins r)) p
  = (if is_tested g p then false else Z.testbit (ddr g r) p) /\
  Z.testbit (port g (main_configure_pins r)) p
  = (if is_tested g p then true else Z.testbit (port g r) p).
Proof.
  intros Hp.
  destruct g; unfold main_configure_pins, is_tested, ddr, port, tested;
    cbn [DDRB PORTB DDRC PORTC DDRD PORTD existsb fst];
    rewrite !testbit_uint8_t by exact Hp;
    unfold BTN_UP, BTN_DOWN, BTN_LEFT, BTN_RIGHT, BTN_ACTION_A, BTN_ACTION_B;
    rewrite Z.land_spec, Z.lnot_spec, !Z.lor_spec, !testbit_button
      by (try lia; vm_compute; discriminate);
    match goal with
    | |- context [(?a =? p) || ((?b =? p) || false)] =>
        destruct (a =? p), (b =? p);
        simpl; rewrite ?andb_false_r, ?andb_true_r, ?orb_true_r, ?orb_false_r;
        auto
    end.
Qed.

Lemma main_configure_pins_bits_witness :
  Z.testbit (DDRB (main_configure_pins (mkPorts 255 0 255 0 255 0))) 3 = false /\
  Z.testbit (PORTB (main_configure_pins (mkPorts 255 0 255 0 255 0))) 3 = true.
Proof.
  apply (main_configure_pins_bits (mkPorts 255 0 255 0 255 0) GroupB 3). lia.
Defined.

(** ** The main loop in general *)

(** X18. The heartbeat count: from counter zero, any number [n] of
    main-loop iterations, under any schedule of completion interrupts and
    with room for the bytes, returns with the counter at [n mod 1000] and
    has enqueued exactly [n / 1000] heartbeat pairs and nothing else. *)
Theorem main_loop_heartbeat_count (ts : list tick) (u : uart) :
  uart_wf u ->
  (pending_count u + 2 * (length ts / 1000) <= 31)%nat ->
  exists u',
    main_loop ts (0, u) = Some (Z.of_nat (length ts mod 1000), u') /\
    UDR0 u' ++ pending u' = (UDR0 u ++ pending u) ++ heartbeats (length ts / 1000).
Proof.
  intros Hwf Hroom.
  pose proof (Nat.div_mod_eq (length ts) 1000) as Hdm.
  pose proof (Nat.mod_upper_bound (length ts) 1000) as Hmod.
  set (k := (length ts / 1000)%nat) in *.
  set (r := (length ts mod 1000)%nat) in *.
  assert (main_loop ts (0, u)
          = main_loop (take (1000 * k) ts ++ drop (1000 * k) ts) (0, u)) as ->
    by now rewrite take_drop.
  rewrite main_loop_app.
  destruct (main_loop_periods k (take (1000 * k) ts) u) as (u1 & -> & [Hwf1 Ha1 Hc1]);
    [rewrite length_take; lia | exact Hwf | exact Hroom|].
  cbn [mbind option_bind].
  destruct (main_loop_quiet (drop (1000 * k) ts) 0 u1 Hwf1) as (u' & Hr & [Hwf' Ha' Hc']);
    [lia | rewrite length_drop; lia|].
  exists u'. split.
  - rewrite Hr, length_drop. do 2 f_equal. lia.
  - fold (accepted u') (accepted u). rewrite Ha', Ha1, app_nil_r. reflexivity.
Qed.

Lemma main_loop_heartbeat_count_witness :
  exists u',
    main_loop (replicate 2500 (mkTick [] [] 1)) (0, uart_reset) = Some (500, u') /\
    UDR0 u' ++ pending u'
    = [CMD_HEARTBEAT; NL; CMD_HEARTBEAT; NL].
Proof.
  destruct (main_loop_heartbeat_count (replicate 2500 (mkTick [] [] 1)) uart_reset
              uart_reset_wf) as (u' & Hr & Ha).
  - rewrite length_replicate. vm_compute. lia.
  - rewrite length_replicate in Hr, Ha. exists u'. split; [exact Hr | exact Ha].
Defined.

(** X19. What the main loop can enqueue: whenever a stretch of [n]
    iterations returns, from any counter value below 1000 and under any
    schedule of completion interrupts, the counter is again below 1000
    (it is [(c + n) mod 1000], so the 16-bit counter never wraps) and the
    bytes enqueued are whole heartbeat pairs, [(c + n) / 1000] of them. *)
Theorem main_loop_only_heartbeats (ts : list tick) (c c' : Z) (u u' : uart) :
  uart_wf u ->
  0 <= c < 1000 ->
  main_loop ts (c, u) = Some (c', u') ->
  c' = (c + Z.of_nat (length ts)) mod 1000 /\
  0 <= c' < 1000 /\
  UDR0 u' ++ pending u'
  = (UDR0 u ++ pending u)
      ++ heartbeats (Z.to_nat ((c + Z.of_nat (length ts)) / 1000)).
Proof.
  assert (forall ts c u,
             uart_wf u -> 0 <= c < 1000 ->
             main_loop ts (c, u) = Some (c', u') ->
             c' = (c + Z.of_nat (length ts)) mod 1000 /\
             accepted u'
             = accepted u ++ heartbeats (Z.to_nat ((c + Z.of_nat (length ts)) / 1000)))
    as Hgen.
  { clear. induction ts as [|t ts IH]; intros c u Hwf Hc.
    - simpl. intros [= <- <-]. rewrite Z.add_0_r, Z.mod_small, Z.div_small by lia.
      simpl. now rewrite app_nil_r.
    - cbn [main_loop]. unfold main_loop_body. cbn [fst snd].
      assert (uint16_t (c + 1) = c + 1) as -> by index_arith.
      replace (c + Z.of_nat (length (t :: ts))) with (c + 1 + Z.of_nat (length ts))
        by (simpl length; lia).
      destruct (Z.geb_spec (c + 1) 1000) as [Hge|Hlt].
      + destruct (uart_send_char (irqs_cmd t) CMD_HEARTBEAT u) as [u1|] eqn:Hs1;
          cbn [mbind option_bind]; [|discriminate].
        destruct (uart_send_char (irqs_nl t) NL u1) as [u2|] eqn:Hs2;
          cbn [mbind option_bind]; [|discriminate].
        pose proof (uart_send_char_wf _ _ _ _ Hwf Hs1) as Hwf1.
        pose proof (uart_send_char_wf _ _ _ _ Hwf1 Hs2) as Hwf2.
        destruct (delay_irqs (irqs_delay t) u2 Hwf2) as (Hwf3 & Ha3 & _).
        intros Hr. destruct (IH 0 _ Hwf3 ltac:(lia) Hr) as [Hc' Ha'].
        assert (c = 999) as -> by lia.
        split.
        * rewrite Hc'. index_arith.
        * rewrite Ha', Ha3, (accepted_uart_send_char _ _ _ _ Hwf1 Hs2),
            (accepted_uart_send_char _ _ _ _ Hwf Hs1), <- !app_assoc.
          f_equal.
          replace ((999 + 1 + Z.of_nat (length ts)) / 1000)
            with (Z.succ ((0 + Z.of_nat (length ts)) / 1000)) by index_arith.
          rewrite Z2Nat.inj_succ by index_arith. reflexivity.
      + cbn [mbind option_bind].
        destruct (delay_irqs (irqs_delay t) u Hwf) as (Hwf1 & Ha1 & _).
        intros Hr. destruct (IH (c + 1) _ Hwf1 ltac:(lia) Hr) as [Hc' Ha'].
        split; [exact Hc'|]. rewrite Ha', Ha1. reflexivity. }
  intros Hwf Hc Hr. destruct (Hgen ts c u Hwf Hc Hr) as [Hc' Ha].
  split; [exact Hc'|]. split; [|exact Ha].
  rewrite Hc'. apply Z.mod_pos_bound. lia.
Qed.

Lemma main_loop_only_heartbeats_witness :
  exists c' u',
    main_loop (replicate 3 (mkTick [] [false; true] 0)) (998, uart_reset) = Some (c', u') /\
    c' = 1 /\
    UDR0 u' ++ pending u' = [CMD_HEARTBEAT; NL].
Proof.
  destruct (main_loop (replicate 3 (mkTick [] [false; true] 0)) (998, uart_reset))
    as [[c' u']|] eqn:Hr; [|vm_compute in Hr; discriminate].
  exists c', u'. split; [reflexivity|].
  destruct (main_loop_only_heartbeats _ 998 c' uart_reset u' uart_reset_wf
              ltac:(lia) Hr) as (Hc & _ & Ha).
  split; [exact Hc | exact Ha].
Defined.

(** * Group evaluations on a nearly full buffer *)








(** ** Claims about the edge detector, on every state of the program *)












